(** * SilentKingdoms: a shallow embedding of the contract and its properties

    The contract keeps, per caller address, two encrypted 32-bit balances
    ([gold], [lastBuilding]) and a plaintext [registered] flag.  All
    arithmetic on the encrypted fields goes through the FHE library, which is
    not part of the repository; it is modelled here as a coprocessor that maps
    ciphertext handles to the clear values they encrypt, together with the
    access-control list that [FHE.allow] and [FHE.allowThis] write to.  The
    handle of a result is determined by the operation and its operand
    handles, as the executor derives it: computing the same term again yields
    the same handle, so the trivially encrypted constants have one handle
    each, whoever asks for them.  An external input is accepted only with a
    proof bound to the caller and the contract; every accepted input is
    modelled as a new ciphertext with a handle of its own.  The library's
    internal permission checks on operands are left out.

    Contract functions are written in a state-and-revert monad over the
    [world] (contract storage, coprocessor, event log), statement by
    statement as in the Solidity source. *)

From Stdlib Require Import ZArith Ascii String List Lia.
From stdpp Require Import base option gmap sets.

Open Scope Z_scope.

(** ** Basic types *)

(** Account addresses and ciphertext handles.  Solidity's [euint32] and
    [ebool] are both [bytes32] handles; the zero handle is the value of an
    uninitialised storage slot. *)
Abbreviation address := N (only parsing).
Abbreviation handle := N (only parsing).
Abbreviation euint32 := N (only parsing).
Abbreviation ebool := N (only parsing).

(** [uint32] arithmetic wraps modulo 2^32. *)
Definition wrap32 (z : Z) : Z := z mod 2 ^ 32.

(** Clear value behind a handle. *)
Inductive clear :=
| ClearBool (b : bool)
| ClearU32 (z : Z).

(** An externally supplied ciphertext handle (what the relayer produced for
    the 32-bit integer [ext_clear]) and the proof that comes with it, reduced
    to the verdict of the input verifier. *)
Record externalEuint32 := { ext_clear : Z }.
Record inputProof := { proof_verifies : bool }.

(** ** Contract constants *)

Definition STARTING_GOLD : Z := 1000.
Definition BARRACKS_COST : Z := 100.
Definition FARM_COST : Z := 200.
Definition FACTORY_COST : Z := 300.
Definition WALL_COST : Z := 400.

(** ** Storage, events, errors *)

Record PlayerData := mkPlayerData {
  gold : euint32;
  lastBuilding : euint32;
  registered : bool
}.

(** Reading a mapping slot that was never written yields the zero record. *)
#[global] Instance PlayerData_inhabited : Inhabited PlayerData :=
  populate (mkPlayerData 0%N 0%N false).

Inductive event :=
| PlayerJoined (player : address)
| BuildingAttempted (player : address).

Inductive error :=
| RequireFailed (msg : string)
| InvalidProof.

Definition AlreadyRegistered : error := RequireFailed "Player already registered".
Definition NotRegistered : error := RequireFailed "Player not registered".

(** What the executor derives a result handle from: the operation and the
    handles it is applied to. *)
Inductive fhe_term :=
| TrivialEncrypt (v : Z)
| FheEq (a b : handle)
| FheGe (a b : handle)
| FheSub (a b : handle)
| FheSelect (c a b : handle)
| FheAnd (a b : handle)
| FheOr (a b : handle).

#[global] Instance fhe_term_eq_dec : EqDecision fhe_term.
Proof. solve_decision. Defined.

#[global] Instance clear_eq_dec : EqDecision clear.
Proof. solve_decision. Defined.

Definition operands (t : fhe_term) : list handle :=
  match t with
  | TrivialEncrypt _ => []
  | FheEq a b | FheGe a b | FheSub a b | FheAnd a b | FheOr a b => [a; b]
  | FheSelect c a b => [c; a; b]
  end.

(** The world a call runs in.  [handle_table] records which handle stands
    for which term (the executor's hash, made injective).  [sub_operands] is
    a ghost trace: the clear operands of every [FHE.sub] evaluated so far,
    newest first. *)
Record world := mkWorld {
  this : address;
  _players : gmap address PlayerData;
  ciphertexts : gmap handle clear;
  next_handle : handle;
  acl : gset (handle * address);
  events : list event;
  sub_operands : list (Z * Z);
  handle_table : list (fhe_term * handle)
}.

Definition with_players (f : gmap address PlayerData → gmap address PlayerData)
    (w : world) : world :=
  mkWorld (this w) (f (_players w)) (ciphertexts w) (next_handle w) (acl w)
          (events w) (sub_operands w) (handle_table w).

Definition with_acl (f : gset (handle * address) → gset (handle * address))
    (w : world) : world :=
  mkWorld (this w) (_players w) (ciphertexts w) (next_handle w) (f (acl w))
          (events w) (sub_operands w) (handle_table w).

Definition with_events (f : list event → list event) (w : world) : world :=
  mkWorld (this w) (_players w) (ciphertexts w) (next_handle w) (acl w)
          (f (events w)) (sub_operands w) (handle_table w).

Definition with_sub_operands (f : list (Z * Z) → list (Z * Z)) (w : world) : world :=
  mkWorld (this w) (_players w) (ciphertexts w) (next_handle w) (acl w)
          (events w) (f (sub_operands w)) (handle_table w).

(** Binding a fresh handle to a clear value. *)
Definition new_ciphertext (c : clear) (w : world) : world :=
  mkWorld (this w) (_players w) (<[next_handle w := c]> (ciphertexts w))
          (N.succ (next_handle w)) (acl w) (events w) (sub_operands w)
          (handle_table w).

Definition with_handle_table
    (f : list (fhe_term * handle) → list (fhe_term * handle)) (w : world) : world :=
  mkWorld (this w) (_players w) (ciphertexts w) (next_handle w) (acl w)
          (events w) (sub_operands w) (f (handle_table w)).

(** The handle recorded for a term, if any. *)
Fixpoint handle_for (t : fhe_term) (table : list (fhe_term * handle)) : option handle :=
  match table with
  | [] => None
  | (t', h) :: rest => if decide (t = t') then Some h else handle_for t rest
  end.

(** Clear values as a holder of the decryption key sees them.  A handle that
    is unbound (or of the other kind) reads as zero / false. *)
Definition decrypt32 (w : world) (h : euint32) : Z :=
  match ciphertexts w !! h with
  | Some (ClearU32 z) => z
  | _ => 0
  end.

Definition decryptBool (w : world) (h : ebool) : bool :=
  match ciphertexts w !! h with
  | Some (ClearBool b) => b
  | _ => false
  end.

(** ** The transaction monad *)

Inductive outcome (A : Type) :=
| Done (a : A) (w : world)
| Reverted (e : error).
Arguments Done {A} a w.
Arguments Reverted {A} e.

Definition Tx (A : Type) : Type := world → outcome A.

#[global] Instance Tx_ret : MRet Tx := λ A a w, Done a w.
#[global] Instance Tx_bind : MBind Tx := λ A B f m w,
  match m w with
  | Done a w' => f a w'
  | Reverted e => Reverted e
  end.

Definition require (cond : bool) (msg : string) : Tx unit :=
  λ w, if cond then Done tt w else Reverted (RequireFailed msg).

Definition emit (e : event) : Tx unit :=
  λ w, Done tt (with_events (cons e) w).

(** Storage access through a [PlayerData storage] reference, which is the
    mapping key it was taken at. *)
Definition sload (slot : address) : Tx PlayerData :=
  λ w, Done (_players w !!! slot) w.

Definition sstore_gold (slot : address) (v : euint32) : Tx unit :=
  λ w, let p := _players w !!! slot in
       Done tt (with_players <[slot := mkPlayerData v (lastBuilding p) (registered p)]> w).

Definition sstore_lastBuilding (slot : address) (v : euint32) : Tx unit :=
  λ w, let p := _players w !!! slot in
       Done tt (with_players <[slot := mkPlayerData (gold p) v (registered p)]> w).

Definition sstore_registered (slot : address) (v : bool) : Tx unit :=
  λ w, let p := _players w !!! slot in
       Done tt (with_players <[slot := mkPlayerData (gold p) (lastBuilding p) v]> w).

(** ** The FHE library, as the contract uses it *)

Module FHE.

(** A ciphertext that comes from outside gets a handle of its own. *)
Definition fresh (c : clear) : Tx handle :=
  λ w, Done (next_handle w) (new_ciphertext c w).

(** The result [c] of evaluating the term [t].  Its handle is the one
    recorded for [t] when the store holds [c] under it -- as it does in every
    world reached from deployment, where a term always evaluates to the same
    value; otherwise the next handle is issued for [t] and recorded. *)
Definition compute (t : fhe_term) (c : clear) : Tx handle :=
  λ w,
    let issue := Done (next_handle w)
                   (with_handle_table (cons (t, next_handle w)) (new_ciphertext c w)) in
    match handle_for t (handle_table w) with
    | Some h =>
        if bool_decide (ciphertexts w !! h = Some c) && (h <? next_handle w)%N
        then Done h w else issue
    | None => issue
    end.

Definition asEuint32 (v : Z) : Tx euint32 :=
  compute (TrivialEncrypt (wrap32 v)) (ClearU32 (wrap32 v)).

Definition fromExternal (input : externalEuint32) (proof : inputProof) : Tx euint32 :=
  λ w, if proof_verifies proof
       then fresh (ClearU32 (wrap32 (ext_clear input))) w
       else Reverted InvalidProof.

Definition ge (a b : euint32) : Tx ebool :=
  λ w, compute (FheGe a b) (ClearBool (decrypt32 w b <=? decrypt32 w a)) w.

Definition sub (a b : euint32) : Tx euint32 :=
  λ w, compute (FheSub a b) (ClearU32 (wrap32 (decrypt32 w a - decrypt32 w b)))
         (with_sub_operands (cons (decrypt32 w a, decrypt32 w b)) w).

Definition select (c : ebool) (a b : euint32) : Tx euint32 :=
  λ w, compute (FheSelect c a b)
         (ClearU32 (if decryptBool w c then decrypt32 w a else decrypt32 w b)) w.

Definition allow (h : handle) (account : address) : Tx unit :=
  λ w, Done tt (with_acl (union {[ (h, account) ]}) w).

Definition allowThis (h : handle) : Tx unit :=
  λ w, allow h (this w) w.

Definition eq (a b : euint32) : Tx ebool :=
  λ w, compute (FheEq a b) (ClearBool (decrypt32 w a =? decrypt32 w b)) w.

Definition and (a b : ebool) : Tx ebool :=
  λ w, compute (FheAnd a b) (ClearBool (decryptBool w a && decryptBool w b)) w.

Definition or (a b : ebool) : Tx ebool :=
  λ w, compute (FheOr a b) (ClearBool (decryptBool w a || decryptBool w b)) w.

End FHE.

(** ** The contract *)

Definition _storePlayerCiphertexts (player : address)
    (goldCipher buildingCipher : euint32) (playerAddress : address) : Tx unit :=
  sstore_gold player goldCipher;;
  sstore_lastBuilding player buildingCipher;;
  p ← sload player; FHE.allowThis (gold p);;
  p ← sload player; FHE.allow (gold p) playerAddress;;
  p ← sload player; FHE.allowThis (lastBuilding p);;
  p ← sload player; FHE.allow (lastBuilding p) playerAddress.

Definition _resolveBuildingCost (buildingId : euint32) : Tx (euint32 * ebool) :=
  c1 ← FHE.asEuint32 1; isBarracks ← FHE.eq buildingId c1;
  c2 ← FHE.asEuint32 2; isFarm ← FHE.eq buildingId c2;
  c3 ← FHE.asEuint32 3; isFactory ← FHE.eq buildingId c3;
  c4 ← FHE.asEuint32 4; isWall ← FHE.eq buildingId c4;
  selectedCost ← FHE.asEuint32 0;
  barracksCost ← FHE.asEuint32 BARRACKS_COST;
  selectedCost ← FHE.select isBarracks barracksCost selectedCost;
  farmCost ← FHE.asEuint32 FARM_COST;
  selectedCost ← FHE.select isFarm farmCost selectedCost;
  factoryCost ← FHE.asEuint32 FACTORY_COST;
  selectedCost ← FHE.select isFactory factoryCost selectedCost;
  wallCost ← FHE.asEuint32 WALL_COST;
  selectedCost ← FHE.select isWall wallCost selectedCost;
  barracksOrFarm ← FHE.or isBarracks isFarm;
  factoryOrWall ← FHE.or isFactory isWall;
  validPair ← FHE.or barracksOrFarm factoryOrWall;
  mret (selectedCost, validPair).

Definition joinGame (msg_sender : address) : Tx unit :=
  let player := msg_sender in
  p ← sload player;
  require (negb (registered p)) "Player already registered";;
  startingGold ← FHE.asEuint32 STARTING_GOLD;
  initialBuilding ← FHE.asEuint32 0;
  sstore_registered player true;;
  _storePlayerCiphertexts player startingGold initialBuilding msg_sender;;
  emit (PlayerJoined msg_sender).

Definition constructBuilding (msg_sender : address)
    (encryptedBuildingId : externalEuint32) (proof : inputProof) : Tx unit :=
  let player := msg_sender in
  p ← sload player;
  require (registered p) "Player not registered";;
  p ← sload player; let currentGold := gold p in
  p ← sload player; let currentBuilding := lastBuilding p in
  buildingId ← FHE.fromExternal encryptedBuildingId proof;
  '(buildingCost, isKnownBuilding) ← _resolveBuildingCost buildingId;
  canAfford ← FHE.ge currentGold buildingCost;
  shouldApply ← FHE.and isKnownBuilding canAfford;
  zeroValue ← FHE.asEuint32 0;
  appliedCost ← FHE.select shouldApply buildingCost zeroValue;
  updatedGold ← FHE.sub currentGold appliedCost;
  updatedBuilding ← FHE.select shouldApply buildingId currentBuilding;
  _storePlayerCiphertexts player updatedGold updatedBuilding msg_sender;;
  emit (BuildingAttempted msg_sender).

Definition getPlayerGold (playerAddress : address) : Tx euint32 :=
  p ← sload playerAddress;
  require (registered p) "Player not registered";;
  p ← sload playerAddress;
  mret (gold p).

Definition getPlayerLastBuilding (playerAddress : address) : Tx euint32 :=
  p ← sload playerAddress;
  require (registered p) "Player not registered";;
  p ← sload playerAddress;
  mret (lastBuilding p).

Definition getPlayerState (playerAddress : address) : Tx (euint32 * euint32 * bool) :=
  p ← sload playerAddress;
  require (registered p) "Player not registered";;
  p ← sload playerAddress;
  mret (gold p, lastBuilding p, registered p).

Definition isPlayerRegistered (playerAddress : address) : Tx bool :=
  p ← sload playerAddress;
  mret (registered p).

(** [pure] in the source: no world is threaded through. *)
Definition getBuildingPrices : list Z :=
  [BARRACKS_COST; FARM_COST; FACTORY_COST; WALL_COST].

(** ** Transactions and reachable worlds *)

Inductive call :=
| JoinGame
| ConstructBuilding (encryptedBuildingId : externalEuint32) (proof : inputProof).

Record message := mkMessage { sender : address; payload : call }.

Definition dispatch (m : message) : Tx unit :=
  match payload m with
  | JoinGame => joinGame (sender m)
  | ConstructBuilding id proof => constructBuilding (sender m) id proof
  end.

(** A reverted call leaves the world as it was. *)
Definition transact (w : world) (m : message) : world * option error :=
  match dispatch m w with
  | Done _ w' => (w', None)
  | Reverted e => (w, Some e)
  end.

Definition run (w : world) (ms : list message) : world :=
  foldl (λ w m, (transact w m).1) w ms.

(** The world right after deployment at address [self]; handle 0 is kept
    for uninitialised slots. *)
Definition genesis (self : address) : world :=
  mkWorld self ∅ ∅ 1%N ∅ [] [] [].

Definition reachable (w : world) : Prop :=
  ∃ self ms, w = run (genesis self) ms.

(** What the owner reads back. *)
Definition goldOf (w : world) (a : address) : Z :=
  decrypt32 w (gold (_players w !!! a)).

Definition lastBuildingOf (w : world) (a : address) : Z :=
  decrypt32 w (lastBuilding (_players w !!! a)).

Definition isRegistered (w : world) (a : address) : bool :=
  registered (_players w !!! a).

(** ** Reasoning vocabulary *)

(** [bound w h c]: handle [h] has been issued in [w] and encrypts [c]. *)
Definition bound (w : world) (h : handle) (c : clear) : Prop :=
  ciphertexts w !! h = Some c ∧ (h < next_handle w)%N.

(** The handle table is well formed: recorded handles and the operands of
    recorded terms have been issued, and a handle stands for one term only. *)
Record table_wf (w : world) : Prop := mkTableWf {
  tw_issued : ∀ t h, (t, h) ∈ handle_table w → (h < next_handle w)%N;
  tw_operands : ∀ t h o, (t, h) ∈ handle_table w → o ∈ operands t →
    (o < next_handle w)%N;
  tw_functional : ∀ t t' h, (t, h) ∈ handle_table w → (t', h) ∈ handle_table w →
    t = t'
}.

(** [extends w w']: [w'] differs from [w] only by newly issued handles. *)
Record extends (w w' : world) : Prop := mkExtends {
  ext_this : this w' = this w;
  ext_players : _players w' = _players w;
  ext_acl : acl w' = acl w;
  ext_events : events w' = events w;
  ext_next : (next_handle w ≤ next_handle w')%N;
  ext_old : ∀ h, (h < next_handle w)%N → ciphertexts w' !! h = ciphertexts w !! h;
  ext_table : ∃ new, handle_table w' = new ++ handle_table w ∧
    Forall (λ e, (next_handle w ≤ e.2 < next_handle w')%N) new;
  ext_table_wf : table_wf w → table_wf w'
}.

(** Total correctness of a monadic computation: it returns, and the result
    satisfies [Q]. *)
Definition wp {A : Type} (m : Tx A) (w : world) (Q : A → world → Prop) : Prop :=
  ∃ a w', m w = Done a w' ∧ Q a w'.

(** [u] is [w] up to the subtraction trace. *)
Definition same_coprocessor (w u : world) : Prop :=
  this u = this w ∧ _players u = _players w ∧ ciphertexts u = ciphertexts w ∧
  next_handle u = next_handle w ∧ acl u = acl w ∧ events u = events w ∧
  handle_table u = handle_table w.





(** What every value-producing operation leaves behind for its continuation
    [Q]: a larger world with a handle [h] bound to the clear result [c], and
    the subtraction trace [l].  The handle is the one on record for the term
    computed, or a new one for an external input. *)
Definition issued (w : world) (Q : handle → world → Prop)
    (origin : option fhe_term) (c : clear) (l : list (Z * Z)) : Prop :=
  ∀ h w', extends w w' → sub_operands w' = l → bound w' h c →
    match origin with
    | Some t => (t, h) ∈ handle_table w'
    | None => (next_handle w ≤ h)%N
    end → Q h w'.

(** What a successful [joinGame] or [constructBuilding] of [a] does to the
    world [w], clear values aside: the record of [a] now holds the handles
    [hg] and [hb], nothing that was issued before is disturbed, and exactly
    four grants are added to the access-control list. *)
Record rewritten (w w' : world) (a : address) (hg hb : handle)
    (ev : event) (subs : list (Z * Z)) : Prop := mkRewritten {
  rw_players : _players w' = <[a := mkPlayerData hg hb true]> (_players w);
  rw_bound : ∀ h x, bound w h x → bound w' h x;
  rw_acl : acl w' = {[(hg, this w); (hg, a); (hb, this w); (hb, a)]} ∪ acl w;
  rw_events : events w' = ev :: events w;
  rw_this : this w' = this w;
  rw_sub : sub_operands w' = subs
}.

(** Clear-value reading of the oblivious catalogue lookup: the selects of
    [_resolveBuildingCost] are folded in source order, so the last match
    wins. *)
Definition selectedCostOf (k : Z) : Z :=
  if k =? 4 then WALL_COST
  else if k =? 3 then FACTORY_COST
  else if k =? 2 then FARM_COST
  else if k =? 1 then BARRACKS_COST
  else 0.

Definition validPairOf (k : Z) : bool :=
  ((k =? 1) || (k =? 2)) || ((k =? 3) || (k =? 4)).

(** A subtraction of 32-bit operands that takes zero or a catalogue cost
    away and does not borrow. *)
Definition sub_exact (ab : Z * Z) : Prop :=
  0 ≤ ab.2 ≤ ab.1 ∧ ab.1 < 2 ^ 32 ∧
  In ab.2 [0; BARRACKS_COST; FARM_COST; FACTORY_COST; WALL_COST].

(** The catalogue as the interface documents it: building id and cost. *)
Definition catalog : list (Z * Z) := [(1, 100); (2, 200); (3, 300); (4, 400)].

(** The invariant of reachable worlds: the two ciphertexts of a registered
    player are issued handles of 32-bit integers, and no subtraction so far
    has wrapped. *)
Record wf (w : world) : Prop := mkWf {
  wf_gold : ∀ a, isRegistered w a = true →
    ∃ g, bound w (gold (_players w !!! a)) (ClearU32 g) ∧ 0 ≤ g < 2 ^ 32;
  wf_building : ∀ a, isRegistered w a = true →
    ∃ b, bound w (lastBuilding (_players w !!! a)) (ClearU32 b) ∧ 0 ≤ b < 2 ^ 32;
  wf_sub : Forall sub_exact (sub_operands w)
}.

(** Sample identities, requests and worlds, after the repository's tests. *)
Definition alice : address := 11%N.
Definition bob : address := 12%N.
Definition proven : inputProof := {| proof_verifies := true |}.
Definition build (who : address) (id : Z) : message :=
  mkMessage who (ConstructBuilding {| ext_clear := id |} proven).
Definition join (who : address) : message := mkMessage who JoinGame.
Definition alice_joined : world := run (genesis 5%N) [join alice].
Definition alice_at_100 : world :=
  run alice_joined [build alice 4; build alice 4; build alice 1].

(** The one event a successful call appends to the log. *)
Definition emitted (m : message) : event :=
  match payload m with
  | JoinGame => PlayerJoined (sender m)
  | ConstructBuilding _ _ => BuildingAttempted (sender m)
  end.

(** The error a call is rejected with, if any, read off the guards in source
    order: the registration [require] first, the input proof second. *)
Definition rejection (w : world) (m : message) : option error :=
  match payload m with
  | JoinGame =>
      if isRegistered w (sender m) then Some AlreadyRegistered else None
  | ConstructBuilding _ proof =>
      if negb (isRegistered w (sender m)) then Some NotRegistered
      else if negb (proof_verifies proof) then Some InvalidProof
      else None
  end.

(** What a player can learn about their own account: nothing before
    joining, afterwards the decrypted gold and last building. *)
Definition standing (w : world) (a : address) : option (Z * Z) :=
  if isRegistered w a then Some (goldOf w a, lastBuildingOf w a) else None.

#[global] Instance event_eq_dec : EqDecision event.
Proof. solve_decision. Defined.

(** ** The clients

    The pure helpers of the web client (the [GameApp] component and
    [config/contracts.ts]) and of the Hardhat tasks.  A character of a
    [string] stands for one UTF-16 code unit; only lengths and slices are
    taken. *)

Module GameApp.

Record building := mkBuilding { id : Z; name : string }.

Definition BUILDINGS : list building :=
  [mkBuilding 1 "Barracks"; mkBuilding 2 "Farm";
   mkBuilding 3 "Factory"; mkBuilding 4 "Wall"].

Definition ZERO_ADDRESS : string := "0x0000000000000000000000000000000000000000".
Definition CONTRACT_ADDRESS : string := ZERO_ADDRESS.

Definition DEFAULT_PRICES : list Z := [100; 200; 300; 400].

(** [String.prototype.slice]: negative indices count from the end, both
    ends are clamped to the string. *)
Definition slice (s : string) (start : Z) (finish : option Z) : string :=
  let len := Z.of_nat (String.length s) in
  let clamp i := if i <? 0 then Z.max (len + i) 0 else Z.min i len in
  let from := clamp start in
  let to := match finish with None => len | Some e => clamp e end in
  substring (Z.to_nat from) (Z.to_nat (Z.max (to - from) 0)) s.

(** [value] is [undefined], [null] or a string; the empty string is falsy
    too. *)
Definition formatCiphertext (value : option string) : string :=
  match value with
  | None => "Not available"
  | Some v =>
      if (String.length v =? 0)%nat then "Not available"
      else if (String.length v <=? 18)%nat then v
      else (slice v 0 (Some 10) ++ "..." ++ slice v (-6) None)%string
  end.

Definition buildingNameFromId (i : Z) : string :=
  match List.find (λ entry, id entry =? i) BUILDINGS with
  | Some found => name found
  | None => if i =? 0 then "None" else "Unknown"
  end.

(** An entry of [buildingOptions]: the building spread into a new object,
    plus its cost. *)
Record buildingOption := mkOption { building_of : building; cost : Z }.

(** [prices[index] ?? DEFAULT_PRICES[index] ?? 0] for each building. *)
Definition buildingOptions (buildingPrices : list Z) : list buildingOption :=
  imap (λ index b,
          mkOption b (default (default 0 (DEFAULT_PRICES !! index))
                              (buildingPrices !! index)))
       BUILDINGS.

(** [/^0x[0-9a-fA-F]{40}$/.test(s)] *)
Definition isHexDigit (c : ascii) : bool :=
  let n := nat_of_ascii c in
  ((48 <=? n) && (n <=? 57) || (97 <=? n) && (n <=? 102) ||
   (65 <=? n) && (n <=? 70))%nat.

Definition ADDRESS_PATTERN_test (s : string) : bool :=
  match s with
  | String c0 (String c1 digits) =>
      Ascii.eqb c0 "0" && Ascii.eqb c1 "x" &&
      (String.length digits =? 40)%nat &&
      forallb isHexDigit (list_ascii_of_string digits)
  | _ => false
  end.

(** The part of the component state that [applyContractAddress] and the
    address input work on. *)
Inductive feedbackType := info | error.

Record view := mkView {
  gameAddress : string;
  customAddress : string;
  decryptedState : option (Z * Z);
  feedback : option (feedbackType * string)
}.

Definition initialView : view :=
  mkView CONTRACT_ADDRESS CONTRACT_ADDRESS None None.

Definition setCustomAddress (typed : string) (v : view) : view :=
  mkView (gameAddress v) typed (decryptedState v) (feedback v).

Definition applyContractAddress (v : view) : view :=
  if negb (ADDRESS_PATTERN_test (customAddress v))
  then mkView (gameAddress v) (customAddress v) (decryptedState v)
         (Some (error, "Enter a valid 42-character hexadecimal address."%string))
  else mkView (customAddress v) (customAddress v) None
         (Some (info, "Contract address updated."%string)).

Inductive action := Type_ (typed : string) | Apply.

Definition act (v : view) (a : action) : view :=
  match a with
  | Type_ typed => setCustomAddress typed v
  | Apply => applyContractAddress v
  end.

End GameApp.

Module Tasks.

Definition BUILDING_LABELS : gmap Z string :=
  list_to_map [(0, "None"); (1, "Barracks"); (2, "Farm");
               (3, "Factory"); (4, "Wall")]%string.

(** [BUILDING_LABELS[Number(clearBuilding)] ?? "Unknown"] of task:game-decrypt. *)
Definition buildingLabel (clearBuilding : Z) : string :=
  default "Unknown"%string (BUILDING_LABELS !! clearBuilding).

End Tasks.

(** ** The monad and the coprocessor, step by step *)

Lemma wp_ret {A} (a : A) w (Q : A → world → Prop) :
  Q a w → wp (mret a) w Q.
Proof. intros HQ. by exists a, w. Qed.

Lemma wp_bind {A B} (m : Tx A) (f : A → Tx B) w (Q : B → world → Prop) :
  wp m w (λ a w', wp (f a) w' Q) → wp (m ≫= f) w Q.
Proof.
  intros (a & w' & Hm & b & w'' & Hf & HQ).
  exists b, w''. split; [|done].
  unfold mbind, Tx_bind. by rewrite Hm.
Qed.

Lemma wp_sload slot w (Q : PlayerData → world → Prop) :
  Q (_players w !!! slot) w → wp (sload slot) w Q.
Proof. intros HQ. by eexists _, _. Qed.

Lemma wp_require cond msg w (Q : unit → world → Prop) :
  cond = true → Q tt w → wp (require cond msg) w Q.
Proof. intros -> HQ. by exists tt, w. Qed.

Lemma bound_extends w w' h c : extends w w' → bound w h c → bound w' h c.
Proof.
  intros E [Hc Hlt]. split.
  - by rewrite (ext_old _ _ E).
  - pose proof (ext_next _ _ E). lia.
Qed.

Lemma bound_same w w' h c :
  ciphertexts w' = ciphertexts w → next_handle w' = next_handle w →
  bound w h c → bound w' h c.
Proof. unfold bound. by intros -> ->. Qed.

Lemma extends_trans w1 w2 w3 : extends w1 w2 → extends w2 w3 → extends w1 w3.
Proof.
  intros E1 E2. pose proof (ext_next _ _ E1). pose proof (ext_next _ _ E2).
  constructor.
  - by rewrite (ext_this _ _ E2), (ext_this _ _ E1).
  - by rewrite (ext_players _ _ E2), (ext_players _ _ E1).
  - by rewrite (ext_acl _ _ E2), (ext_acl _ _ E1).
  - by rewrite (ext_events _ _ E2), (ext_events _ _ E1).
  - lia.
  - intros h Hh. rewrite (ext_old _ _ E2), (ext_old _ _ E1); [done..|lia].
  - destruct (ext_table _ _ E1) as (new1 & H1 & F1).
    destruct (ext_table _ _ E2) as (new2 & H2 & F2).
    exists (new2 ++ new1). split; [by rewrite H2, H1, app_assoc|].
    apply Forall_app. split; (eapply Forall_impl; [eassumption|]);
      intros e He; cbn in *; lia.
  - intros T. by apply (ext_table_wf _ _ E2), (ext_table_wf _ _ E1).
Qed.

Lemma decrypt32_bound w h z : bound w h (ClearU32 z) → decrypt32 w h = z.
Proof. intros [Hc _]. unfold decrypt32. by rewrite Hc. Qed.

Lemma decryptBool_bound w h b : bound w h (ClearBool b) → decryptBool w h = b.
Proof. intros [Hc _]. unfold decryptBool. by rewrite Hc. Qed.

Lemma table_wf_grow w w' :
  handle_table w' = handle_table w → (next_handle w ≤ next_handle w')%N →
  table_wf w → table_wf w'.
Proof.
  intros Ht Hn [T1 T2 T3]. constructor; rewrite Ht.
  - intros t h Hin. specialize (T1 t h Hin). lia.
  - intros t h o Hin Ho. specialize (T2 t h o Hin Ho). lia.
  - done.
Qed.

Lemma new_ciphertext_extends c w : extends w (new_ciphertext c w).
Proof.
  constructor; cbn; try done.
  - lia.
  - intros h Hh. rewrite lookup_insert_ne; [done|lia].
  - by exists [].
  - apply table_wf_grow; cbn; [done|lia].
Qed.

Lemma new_ciphertext_bound c w : bound (new_ciphertext c w) (next_handle w) c.
Proof. split; cbn; [apply lookup_insert_eq | lia]. Qed.

Lemma handle_for_recorded t table h :
  handle_for t table = Some h → (t, h) ∈ table.
Proof.
  induction table as [|[t' h'] table IH]; cbn; [done|].
  case_decide as Ht; [intros [= ->]; subst; apply elem_of_cons; by left|].
  intros Hfor. apply elem_of_cons. right. by apply IH.
Qed.

(** Evaluating a term in a world [u] that is [w] up to the subtraction
    trace. *)
Lemma compute_issues w u (Q : handle → world → Prop) t c :
  same_coprocessor w u →
  Forall (λ o, (o < next_handle w)%N) (operands t) →
  issued w Q (Some t) c (sub_operands u) →
  ∃ h w', FHE.compute t c u = Done h w' ∧ Q h w'.
Proof.
  intros (Hthis & Hpl & Hcts & Hnext & Hacl & Hev & Htab) Hops HQ.
  assert (extends w u) as Eu.
  { constructor; try done; [lia|by rewrite Hcts|by exists []|].
    apply table_wf_grow; [done|lia]. }
  assert (extends w (with_handle_table (cons (t, next_handle u)) (new_ciphertext c u)))
    as Enew.
  { constructor; cbn; try done.
    - lia.
    - intros h Hh. rewrite Hcts, lookup_insert_ne; [done|lia].
    - exists [(t, next_handle u)]. rewrite Htab. split; [done|].
      constructor; [cbn; lia|constructor].
    - intros [T1 T2 T3]. constructor; cbn; rewrite ?Htab, ?Hnext.
      + intros t' h [[= -> ->]|Hin]%elem_of_cons; [lia|].
        specialize (T1 t' h Hin). lia.
      + intros t' h o [[= -> ->]|Hin]%elem_of_cons Ho.
        * rewrite Forall_forall in Hops. specialize (Hops o Ho). lia.
        * specialize (T2 t' h o Hin Ho). lia.
      + intros t1 t2 h [E1|H1]%elem_of_cons [E2|H2]%elem_of_cons.
        * congruence.
        * injection E1 as -> ->. specialize (T1 t2 _ H2). lia.
        * injection E2 as -> ->. specialize (T1 t1 _ H1). lia.
        * by eapply T3. }
  assert (Q (next_handle u)
            (with_handle_table (cons (t, next_handle u)) (new_ciphertext c u))) as Hissue.
  { apply HQ; [done|done| |].
    - split; cbn; [apply lookup_insert_eq|lia].
    - cbn. apply elem_of_cons. by left. }
  unfold FHE.compute. cbn zeta.
  destruct (handle_for t (handle_table u)) as [h|] eqn:Hfor; [|by eauto].
  destruct (bool_decide _ && _) eqn:Hcheck; [|by eauto].
  apply andb_prop in Hcheck as [Hc Hlt]. apply bool_decide_eq_true in Hc.
  apply N.ltb_lt in Hlt.
  exists h, u. split; [done|]. apply HQ; [done|done|by split|].
  by apply handle_for_recorded.
Qed.

Lemma same_coprocessor_refl w : same_coprocessor w w.
Proof. by repeat split. Qed.

Lemma bound_operand w h c : bound w h c → (h < next_handle w)%N.
Proof. by intros [_ ?]. Qed.

Section Coprocessor.
Context (w : world) (Q : handle → world → Prop).

Lemma wp_fresh c : issued w Q None c (sub_operands w) → wp (FHE.fresh c) w Q.
Proof.
  intros HQ. exists (next_handle w), (new_ciphertext c w). split; [done|].
  apply HQ; [apply new_ciphertext_extends|done|apply new_ciphertext_bound|lia].
Qed.

Lemma wp_compute t c :
  Forall (λ o, (o < next_handle w)%N) (operands t) →
  issued w Q (Some t) c (sub_operands w) → wp (FHE.compute t c) w Q.
Proof. intros. by eapply compute_issues; [apply same_coprocessor_refl|..]. Qed.

Lemma wp_asEuint32 v :
  issued w Q (Some (TrivialEncrypt (wrap32 v))) (ClearU32 (wrap32 v)) (sub_operands w) →
  wp (FHE.asEuint32 v) w Q.
Proof. apply wp_compute. constructor. Qed.

Lemma wp_fromExternal input proof :
  proof_verifies proof = true →
  issued w Q None (ClearU32 (wrap32 (ext_clear input))) (sub_operands w) →
  wp (FHE.fromExternal input proof) w Q.
Proof.
  intros Hp HQ. unfold FHE.fromExternal, wp. rewrite Hp. by apply wp_fresh.
Qed.

Lemma wp_eq a b x y :
  bound w a (ClearU32 x) → bound w b (ClearU32 y) →
  issued w Q (Some (FheEq a b)) (ClearBool (x =? y)) (sub_operands w) →
  wp (FHE.eq a b) w Q.
Proof.
  intros Ha Hb HQ. unfold FHE.eq, wp.
  rewrite (decrypt32_bound _ _ _ Ha), (decrypt32_bound _ _ _ Hb).
  apply wp_compute; [|done]. repeat constructor; by eapply bound_operand.
Qed.

Lemma wp_ge a b x y :
  bound w a (ClearU32 x) → bound w b (ClearU32 y) →
  issued w Q (Some (FheGe a b)) (ClearBool (y <=? x)) (sub_operands w) →
  wp (FHE.ge a b) w Q.
Proof.
  intros Ha Hb HQ. unfold FHE.ge, wp.
  rewrite (decrypt32_bound _ _ _ Ha), (decrypt32_bound _ _ _ Hb).
  apply wp_compute; [|done]. repeat constructor; by eapply bound_operand.
Qed.

Lemma wp_select c a b p x y :
  bound w c (ClearBool p) → bound w a (ClearU32 x) → bound w b (ClearU32 y) →
  issued w Q (Some (FheSelect c a b)) (ClearU32 (if p then x else y)) (sub_operands w) →
  wp (FHE.select c a b) w Q.
Proof.
  intros Hc Ha Hb HQ. unfold FHE.select, wp.
  rewrite (decryptBool_bound _ _ _ Hc), (decrypt32_bound _ _ _ Ha),
    (decrypt32_bound _ _ _ Hb).
  apply wp_compute; [|done]. repeat constructor; by eapply bound_operand.
Qed.

Lemma wp_and a b p q :
  bound w a (ClearBool p) → bound w b (ClearBool q) →
  issued w Q (Some (FheAnd a b)) (ClearBool (p && q)) (sub_operands w) →
  wp (FHE.and a b) w Q.
Proof.
  intros Ha Hb HQ. unfold FHE.and, wp.
  rewrite (decryptBool_bound _ _ _ Ha), (decryptBool_bound _ _ _ Hb).
  apply wp_compute; [|done]. repeat constructor; by eapply bound_operand.
Qed.

Lemma wp_or a b p q :
  bound w a (ClearBool p) → bound w b (ClearBool q) →
  issued w Q (Some (FheOr a b)) (ClearBool (p || q)) (sub_operands w) →
  wp (FHE.or a b) w Q.
Proof.
  intros Ha Hb HQ. unfold FHE.or, wp.
  rewrite (decryptBool_bound _ _ _ Ha), (decryptBool_bound _ _ _ Hb).
  apply wp_compute; [|done]. repeat constructor; by eapply bound_operand.
Qed.

Lemma wp_sub a b x y :
  bound w a (ClearU32 x) → bound w b (ClearU32 y) →
  issued w Q (Some (FheSub a b)) (ClearU32 (wrap32 (x - y))) ((x, y) :: sub_operands w) →
  wp (FHE.sub a b) w Q.
Proof.
  intros Ha Hb HQ. unfold FHE.sub, wp.
  rewrite (decrypt32_bound _ _ _ Ha), (decrypt32_bound _ _ _ Hb).
  eapply (compute_issues w); [by repeat split| |exact HQ].
  repeat constructor; by eapply bound_operand.
Qed.
End Coprocessor.

Lemma recorded_extends w w' t h :
  extends w w' → (t, h) ∈ handle_table w → (t, h) ∈ handle_table w'.
Proof.
  intros E Hin. destruct (ext_table _ _ E) as (new & Hnew & _).
  rewrite Hnew. apply elem_of_app. by right.
Qed.

(** Symbolic execution: run one operation, then carry every fact about the
    old world over to the new one. *)
Ltac carry E :=
  repeat match goal with
  | H : bound ?w _ _ |- _ =>
      lazymatch type of E with
      | extends w _ => apply (bound_extends _ _ _ _ E) in H
      end
  | H : _ ∈ handle_table ?w |- _ =>
      lazymatch type of E with
      | extends w _ => apply (recorded_extends _ _ _ _ E) in H
      end
  end.

Ltac settle E :=
  carry E;
  try match goal with
  | E0 : extends ?w0 ?w1, E1 : extends ?w1 ?w2 |- _ =>
      let E2 := fresh "E" in
      pose proof (extends_trans _ _ _ E0 E1) as E2; clear E0 E1
  end;
  try match goal with
  | S0 : sub_operands ?w1 = _, S1 : sub_operands ?w2 = _ |- _ =>
      lazymatch type of S1 with
      | context [sub_operands w1] => rewrite S0 in S1; clear S0
      end
  end.

Ltac advance :=
  let h := fresh "h" in
  let w' := fresh "w" in
  let E := fresh "E" in
  let S := fresh "S" in
  let B := fresh "B" in
  let R := fresh "R" in
  unfold issued; intros h w' E S B R; cbv beta iota in R; settle E.

Ltac step L := eapply wp_bind; eapply L; [eassumption.. | advance].

Lemma wp_const v w (Q : handle → world → Prop) :
  (0 <=? v) && (v <? 2 ^ 32) = true →
  issued w Q (Some (TrivialEncrypt v)) (ClearU32 v) (sub_operands w) →
  wp (FHE.asEuint32 v) w Q.
Proof.
  intros Hv HQ. apply wp_asEuint32.
  replace (wrap32 v) with v; [done|].
  unfold wrap32. rewrite Z.mod_small; lia.
Qed.

Ltac const := eapply wp_bind; eapply wp_const; [reflexivity | advance].

Lemma wp_resolveBuildingCost id k w (Q : euint32 * ebool → world → Prop) :
  bound w id (ClearU32 k) →
  (∀ hc hv w', extends w w' → sub_operands w' = sub_operands w →
     bound w' hc (ClearU32 (selectedCostOf k)) →
     bound w' hv (ClearBool (validPairOf k)) → Q (hc, hv) w') →
  wp (_resolveBuildingCost id) w Q.
Proof.
  intros Hid HQ. unfold _resolveBuildingCost.
  const. step @wp_eq. const. step @wp_eq. const. step @wp_eq. const. step @wp_eq.
  const. const. step @wp_select. const. step @wp_select.
  const. step @wp_select. const. step @wp_select.
  step @wp_or. step @wp_or. step @wp_or.
  apply wp_ret. by apply HQ.
Qed.

(** ** Effects of the two state-changing functions *)

Lemma wp_storePlayerCiphertexts player g b addr w (Q : unit → world → Prop) :
  Q tt (mkWorld (this w)
          (<[player := mkPlayerData g b (registered (_players w !!! player))]> (_players w))
          (ciphertexts w) (next_handle w)
          ({[(b, addr)]} ∪ ({[(b, this w)]} ∪ ({[(g, addr)]} ∪ ({[(g, this w)]} ∪ acl w))))
          (events w) (sub_operands w) (handle_table w)) →
  wp (_storePlayerCiphertexts player g b addr) w Q.
Proof.
  intros HQ. eexists tt, _. split; [|exact HQ].
  unfold _storePlayerCiphertexts.
  cbv [mbind Tx_bind sstore_gold sstore_lastBuilding sload FHE.allowThis FHE.allow
       with_players with_acl].
  cbn [this _players ciphertexts next_handle acl events sub_operands].
  rewrite !lookup_total_insert_eq. cbn [gold lastBuilding registered].
  by rewrite insert_insert_eq.
Qed.

Lemma grants_reorder (x1 x2 x3 x4 : handle * address) (s : gset (handle * address)) :
  {[x4]} ∪ ({[x3]} ∪ ({[x2]} ∪ ({[x1]} ∪ s))) = {[x1; x2; x3; x4]} ∪ s.
Proof. apply set_eq. intros x. rewrite !elem_of_union. tauto. Qed.

Lemma wp_emit e w (Q : unit → world → Prop) :
  Q tt (with_events (cons e) w) → wp (emit e) w Q.
Proof. intros HQ. by exists tt, (with_events (cons e) w). Qed.

Lemma wp_sstore_registered slot v w (Q : unit → world → Prop) :
  Q tt (with_players
          <[slot := mkPlayerData (gold (_players w !!! slot))
                      (lastBuilding (_players w !!! slot)) v]> w) →
  wp (sstore_registered slot v) w Q.
Proof. intros HQ. by eexists tt, _. Qed.

Lemma constructBuilding_effect w a input prf g b :
  isRegistered w a = true →
  bound w (gold (_players w !!! a)) (ClearU32 g) →
  bound w (lastBuilding (_players w !!! a)) (ClearU32 b) →
  proof_verifies prf = true →
  let k := wrap32 (ext_clear input) in
  let c := selectedCostOf k in
  let ok := validPairOf k && (c <=? g) in
  wp (constructBuilding a input prf) w (λ _ w', ∃ hg hb,
    rewritten w w' a hg hb (BuildingAttempted a)
      ((g, if ok then c else 0) :: sub_operands w) ∧
    bound w' hg (ClearU32 (wrap32 (g - (if ok then c else 0)))) ∧
    bound w' hb (ClearU32 (if ok then k else b))).
Proof.
  intros Hreg Hg Hb Hprf k c ok. unfold constructBuilding.
  eapply wp_bind, wp_sload. eapply wp_bind, wp_require; [exact Hreg|].
  eapply wp_bind, wp_sload. eapply wp_bind, wp_sload.
  step @wp_fromExternal.
  eapply wp_bind, wp_resolveBuildingCost; [eassumption|].
  intros hc hv w1 E1 S1 Bc Bv. settle E1.
  step @wp_ge. step @wp_and. const. step @wp_select. step @wp_sub.
  step @wp_select.
  eapply wp_bind, wp_storePlayerCiphertexts. apply wp_emit.
  eexists _, _. split; [|split; (eapply bound_same; [| |eassumption]; done)].
  match goal with E : extends w _ |- _ =>
    constructor; cbn;
    rewrite ?(ext_players _ _ E), ?(ext_acl _ _ E), ?(ext_this _ _ E),
      ?(ext_events _ _ E); try done
  end.
  - unfold isRegistered in Hreg. by rewrite Hreg.
  - intros h' x Hx.
    eapply bound_same; [| |eapply bound_extends; eassumption]; done.
  - apply grants_reorder.
Qed.

Lemma joinGame_effect w a :
  isRegistered w a = false →
  wp (joinGame a) w (λ _ w', ∃ hg hb,
    rewritten w w' a hg hb (PlayerJoined a) (sub_operands w) ∧
    bound w' hg (ClearU32 STARTING_GOLD) ∧
    bound w' hb (ClearU32 0)).
Proof.
  intros Hreg. unfold joinGame.
  eapply wp_bind, wp_sload.
  eapply wp_bind, wp_require; [unfold isRegistered in Hreg; by rewrite Hreg|].
  const. const.
  eapply wp_bind, wp_sstore_registered.
  eapply wp_bind, wp_storePlayerCiphertexts. apply wp_emit.
  eexists _, _. split; [|split; (eapply bound_same; [| |eassumption]; done)].
  match goal with E : extends w _ |- _ =>
    constructor; cbn;
    rewrite ?(ext_players _ _ E), ?(ext_acl _ _ E), ?(ext_this _ _ E),
      ?(ext_events _ _ E); try done
  end.
  - by rewrite lookup_total_insert_eq, insert_insert_eq.
  - intros h' x Hx.
    eapply bound_same; [| |eapply bound_extends; eassumption]; done.
  - apply grants_reorder.
Qed.

Lemma joinGame_registered w a :
  isRegistered w a = true → joinGame a w = Reverted AlreadyRegistered.
Proof.
  unfold isRegistered. intros Hreg.
  unfold joinGame, sload, require. cbv [mbind Tx_bind]. by rewrite Hreg.
Qed.

Lemma constructBuilding_unregistered w a input prf :
  isRegistered w a = false → constructBuilding a input prf w = Reverted NotRegistered.
Proof.
  unfold isRegistered. intros Hreg.
  unfold constructBuilding, sload, require. cbv [mbind Tx_bind]. by rewrite Hreg.
Qed.

Lemma constructBuilding_unproven w a input prf :
  isRegistered w a = true → proof_verifies prf = false →
  constructBuilding a input prf w = Reverted InvalidProof.
Proof.
  unfold isRegistered. intros Hreg Hprf.
  unfold constructBuilding, sload, require, FHE.fromExternal.
  cbv [mbind Tx_bind]. by rewrite Hreg, Hprf.
Qed.

(** ** The invariant *)

Lemma wrap32_range z : 0 ≤ wrap32 z < 2 ^ 32.
Proof. unfold wrap32. apply Z.mod_pos_bound. lia. Qed.

Lemma wrap32_small z : 0 ≤ z < 2 ^ 32 → wrap32 z = z.
Proof. unfold wrap32. intros Hz. by apply Z.mod_small. Qed.

Lemma selectedCostOf_cases k :
  (k = 1 ∧ selectedCostOf k = 100 ∧ validPairOf k = true) ∨
  (k = 2 ∧ selectedCostOf k = 200 ∧ validPairOf k = true) ∨
  (k = 3 ∧ selectedCostOf k = 300 ∧ validPairOf k = true) ∨
  (k = 4 ∧ selectedCostOf k = 400 ∧ validPairOf k = true) ∨
  (¬ (1 ≤ k ≤ 4) ∧ selectedCostOf k = 0 ∧ validPairOf k = false).
Proof.
  unfold selectedCostOf, validPairOf.
  destruct (Z.eqb_spec k 4) as [->|]; [by do 3 right; left|].
  destruct (Z.eqb_spec k 3) as [->|]; [by do 2 right; left|].
  destruct (Z.eqb_spec k 2) as [->|]; [by right; left|].
  destruct (Z.eqb_spec k 1) as [->|]; [by left|].
  do 4 right. repeat split; [lia|done..].
Qed.

(** The cost actually subtracted is zero or a catalogue cost, and never
    exceeds the balance. *)
Lemma applied_cost_bounds k g :
  let c := selectedCostOf k in
  let ok := validPairOf k && (c <=? g) in
  0 ≤ g < 2 ^ 32 → sub_exact (g, if ok then c else 0).
Proof.
  intros c ok Hg. subst ok c. unfold sub_exact. cbn [fst snd].
  destruct (selectedCostOf_cases k) as [H|[H|[H|[H|H]]]];
    destruct H as (_ & -> & ->); cbn [andb];
    [case Z.leb_spec; intros; cbn; intuition lia..|cbn; intuition lia].
Qed.

Lemma rewritten_wf w w' a hg hb ev subs g b :
  wf w → rewritten w w' a hg hb ev subs →
  bound w' hg (ClearU32 g) → 0 ≤ g < 2 ^ 32 →
  bound w' hb (ClearU32 b) → 0 ≤ b < 2 ^ 32 →
  Forall sub_exact subs → wf w'.
Proof.
  intros [Wg Wb Ws] [Rp Rb _ _ _ Rs] Bg Hg Bb Hb Hs.
  constructor.
  - intros a'. unfold isRegistered. rewrite Rp.
    destruct (decide (a = a')) as [<-|Hne].
    + rewrite lookup_total_insert_eq. cbn. eauto.
    + rewrite lookup_total_insert_ne by done. intros Hreg.
      destruct (Wg a' Hreg) as (g' & Bg' & Hg'). eauto.
  - intros a'. unfold isRegistered. rewrite Rp.
    destruct (decide (a = a')) as [<-|Hne].
    + rewrite lookup_total_insert_eq. cbn. eauto.
    + rewrite lookup_total_insert_ne by done. intros Hreg.
      destruct (Wb a' Hreg) as (b' & Bb' & Hb'). eauto.
  - by rewrite Rs.
Qed.

Lemma genesis_wf self : wf (genesis self).
Proof.
  constructor; cbn; [| |by constructor];
    intros a; unfold isRegistered; cbn; by rewrite lookup_total_empty.
Qed.

Lemma rewritten_self w w' a hg hb ev subs g b :
  rewritten w w' a hg hb ev subs →
  bound w' hg (ClearU32 g) → bound w' hb (ClearU32 b) →
  isRegistered w' a = true ∧ goldOf w' a = g ∧ lastBuildingOf w' a = b ∧
  _players w' !!! a = mkPlayerData hg hb true.
Proof.
  intros [Rp _ _ _ _ _] Bg Bb.
  unfold isRegistered, goldOf, lastBuildingOf.
  rewrite Rp, lookup_total_insert_eq. cbn.
  by rewrite (decrypt32_bound _ _ _ Bg), (decrypt32_bound _ _ _ Bb).
Qed.

Lemma rewritten_other w w' s hg hb ev subs a :
  wf w → rewritten w w' s hg hb ev subs → a ≠ s → isRegistered w a = true →
  isRegistered w' a = true ∧ goldOf w' a = goldOf w a ∧
  lastBuildingOf w' a = lastBuildingOf w a.
Proof.
  intros [Wg Wb _] [Rp Rb _ _ _ _] Hne Hreg.
  destruct (Wg a Hreg) as (g & Bg & _). destruct (Wb a Hreg) as (b & Bb & _).
  unfold isRegistered, goldOf, lastBuildingOf in *.
  rewrite Rp, lookup_total_insert_ne by done.
  rewrite (decrypt32_bound _ _ _ Bg), (decrypt32_bound _ _ _ Bb).
  by rewrite (decrypt32_bound _ _ _ (Rb _ _ Bg)), (decrypt32_bound _ _ _ (Rb _ _ Bb)).
Qed.

(** ** Transactions *)

Lemma transact_done w m (Q : unit → world → Prop) :
  wp (dispatch m) w Q → ∃ w', transact w m = (w', None) ∧ Q tt w'.
Proof.
  intros ([] & w' & Hrun & HQ). exists w'. unfold transact. by rewrite Hrun.
Qed.

Lemma transact_join_registered w a :
  isRegistered w a = true → transact w (join a) = (w, Some AlreadyRegistered).
Proof.
  intros Hreg. unfold transact, dispatch. cbn. by rewrite joinGame_registered.
Qed.

Lemma transact_join w a :
  isRegistered w a = false →
  ∃ w', transact w (join a) = (w', None) ∧ ∃ hg hb,
    rewritten w w' a hg hb (PlayerJoined a) (sub_operands w) ∧
    bound w' hg (ClearU32 STARTING_GOLD) ∧ bound w' hb (ClearU32 0).
Proof.
  intros Hreg.
  destruct (transact_done w (join a) _ (joinGame_effect w a Hreg)) as (w' & ? & ?).
  by exists w'.
Qed.

Lemma transact_build w a input prf :
  wf w → isRegistered w a = true → proof_verifies prf = true →
  let g := goldOf w a in
  let k := wrap32 (ext_clear input) in
  let y := if validPairOf k && (selectedCostOf k <=? g) then selectedCostOf k else 0 in
  ∃ w', transact w (mkMessage a (ConstructBuilding input prf)) = (w', None) ∧
    ∃ hg hb,
      rewritten w w' a hg hb (BuildingAttempted a) ((g, y) :: sub_operands w) ∧
      bound w' hg (ClearU32 (g - y)) ∧
      bound w' hb (ClearU32 (if validPairOf k && (selectedCostOf k <=? g)
                             then k else lastBuildingOf w a)) ∧
      sub_exact (g, y).
Proof.
  intros W Hreg Hprf g k y.
  destruct (wf_gold _ W a Hreg) as (g' & Bg & Hg').
  destruct (wf_building _ W a Hreg) as (b' & Bb & Hb').
  assert (g = g') as Eg by apply (decrypt32_bound _ _ _ Bg).
  assert (lastBuildingOf w a = b') as -> by apply (decrypt32_bound _ _ _ Bb).
  pose proof (applied_cost_bounds k g) as Hy. cbn zeta in Hy. fold y in Hy.
  rewrite Eg in Hy. specialize (Hy Hg').
  destruct (transact_done w (mkMessage a (ConstructBuilding input prf)) _
              (constructBuilding_effect w a input prf g' b' Hreg Bg Bb Hprf))
    as (w' & Htx & hg & hb & R & Bhg & Bhb).
  exists w'. split; [done|]. exists hg, hb.
  subst g'. fold k in R, Bhg, Bhb. fold y in R, Bhg.
  rewrite wrap32_small in Bhg; [done|].
  destruct Hy as (? & ? & _). cbn in *. lia.
Qed.

Lemma transact_step w m :
  wf w →
  wf (transact w m).1 ∧
  ∀ a, isRegistered w a = true →
    isRegistered (transact w m).1 a = true ∧
    goldOf (transact w m).1 a ≤ goldOf w a.
Proof.
  intros W. destruct m as [s [|input prf]].
  - destruct (isRegistered w s) eqn:Hreg.
    + change (mkMessage s JoinGame) with (join s).
      rewrite transact_join_registered by done. cbn. split; [done|]. intros; split; [done|lia].
    + destruct (transact_join w s Hreg) as (w' & Htx & hg & hb & R & Bg & Bb).
      change (mkMessage s JoinGame) with (join s). rewrite Htx. cbn. split.
      * eapply (rewritten_wf w w'); [done|apply R|apply Bg| |apply Bb| |].
        -- unfold STARTING_GOLD. lia.
        -- lia.
        -- apply W.
      * intros a Ha. assert (a ≠ s) by congruence.
        destruct (rewritten_other _ _ _ _ _ _ _ a W R) as (? & -> & _); [done..|].
        split; [done|lia].
  - destruct (isRegistered w s) eqn:Hreg.
    + destruct (proof_verifies prf) eqn:Hprf.
      * destruct (transact_build w s input prf W Hreg Hprf)
          as (w' & Htx & hg & hb & R & Bg & Bb & Hy).
        rewrite Htx. cbn. pose proof Hy as (Hy1 & Hy2 & _). cbn in Hy1, Hy2. split.
        -- eapply (rewritten_wf w w'); [done|apply R|apply Bg| |apply Bb| |].
           ++ lia.
           ++ destruct (wf_building _ W s Hreg) as (b & Bb' & Hb).
              unfold lastBuildingOf. rewrite (decrypt32_bound _ _ _ Bb').
              destruct (_ && _); [apply wrap32_range|done].
           ++ constructor; [done|apply W].
        -- intros a Ha. destruct (decide (a = s)) as [->|Hne].
           ++ destruct (rewritten_self _ _ _ _ _ _ _ _ _ R Bg Bb) as (? & -> & _).
              split; [done|lia].
           ++ destruct (rewritten_other _ _ _ _ _ _ _ a W R) as (? & -> & _); [done..|].
              split; [done|lia].
      * unfold transact, dispatch. cbn.
        rewrite constructBuilding_unproven by done. cbn. split; [done|]. intros; split; [done|lia].
    + unfold transact, dispatch. cbn.
      rewrite constructBuilding_unregistered by done. cbn. split; [done|]. intros; split; [done|lia].
Qed.

Lemma run_cons w m ms : run w (m :: ms) = run (transact w m).1 ms.
Proof. done. Qed.

Lemma run_step w ms :
  wf w →
  wf (run w ms) ∧
  ∀ a, isRegistered w a = true →
    isRegistered (run w ms) a = true ∧ goldOf (run w ms) a ≤ goldOf w a.
Proof.
  revert w. induction ms as [|m ms IH]; intros w W.
  - cbn. split; [done|]. intros; split; [done|lia].
  - rewrite run_cons. destruct (transact_step w m W) as [W' Hm].
    destruct (IH _ W') as [W'' Hms]. split; [done|].
    intros a Ha. destruct (Hm a Ha) as [Ha' Hle].
    destruct (Hms a Ha') as [Ha'' Hle']. split; [done|lia].
Qed.

Lemma reachable_wf w : reachable w → wf w.
Proof. intros (self & ms & ->). apply run_step, genesis_wf. Qed.

Lemma run_snoc w ms m : run w (ms ++ [m]) = (transact (run w ms) m).1.
Proof. unfold run. by rewrite foldl_snoc. Qed.

Lemma catalog_resolved k c :
  In (k, c) catalog →
  wrap32 k = k ∧ selectedCostOf k = c ∧ validPairOf k = true ∧ 0 ≤ c.
Proof.
  cbn. intros [H|[H|[H|[H|[]]]]]; injection H as <- <-; by repeat split.
Qed.

Lemma outside_catalog k :
  0 ≤ k < 2 ^ 32 → ¬ In k [1; 2; 3; 4] →
  wrap32 k = k ∧ validPairOf k = false.
Proof.
  intros Hk Hout. split; [by apply wrap32_small|].
  destruct (selectedCostOf_cases k) as [H|[H|[H|[H|H]]]];
    destruct H as (Hk' & _ & Hv); [exfalso; apply Hout; subst k; cbn; tauto..|done].
Qed.

(** ** Properties of the contract *)

(** C1 (affordable construction).  In a reachable world, a registered player
    whose gold decrypts to [g] submits a valid encrypted request for a
    catalogue id [k] of cost [c <= g]: the call succeeds and afterwards gold
    decrypts to [g - c] and lastBuilding to [k].  In particular, 1000 gold
    and id 2 give 800 gold and lastBuilding 2. *)
Theorem C1_affordable_construction w a g k c prf :
  reachable w → isRegistered w a = true → goldOf w a = g →
  In (k, c) catalog → c ≤ g → proof_verifies prf = true →
  ∃ w', transact w (mkMessage a (ConstructBuilding {| ext_clear := k |} prf))
          = (w', None) ∧
        goldOf w' a = g - c ∧ lastBuildingOf w' a = k ∧
        (g = 1000 → k = 2 → goldOf w' a = 800 ∧ lastBuildingOf w' a = 2).
Proof.
  intros Hw Hreg Hg Hcat Hle Hprf.
  destruct (catalog_resolved k c Hcat) as (Hk & Hc & Hv & _).
  destruct (transact_build w a {| ext_clear := k |} prf (reachable_wf w Hw) Hreg Hprf)
    as (w' & Htx & hg & hb & R & Bg & Bb & _).
  cbn [ext_clear] in *. rewrite Hk, Hc, Hv, Hg in *.
  assert ((c <=? g) = true) as Hleb by (apply Z.leb_le; lia).
  rewrite Hleb in *. cbn [andb] in *.
  destruct (rewritten_self _ _ _ _ _ _ _ _ _ R Bg Bb) as (_ & Hg' & Hb' & _).
  exists w'. split; [done|]. split; [done|]. split; [done|].
  intros -> ->. rewrite Hg', Hb'. split; [|done].
  cbn in Hcat.
  destruct Hcat as [H|[H|[H|[H|[]]]]]; inversion H; lia.
Qed.

Lemma C1_witness :
  ∃ w', transact alice_joined (build alice 2) = (w', None) ∧
        goldOf w' alice = 1000 - 200 ∧ lastBuildingOf w' alice = 2 ∧
        (1000 = 1000 → 2 = 2 → goldOf w' alice = 800 ∧ lastBuildingOf w' alice = 2).
Proof.
  apply (C1_affordable_construction alice_joined alice 1000 2 200 proven).
  - exists 5%N, [join alice]. reflexivity.
  - reflexivity.
  - reflexivity.
  - cbn. tauto.
  - lia.
  - reflexivity.
Defined.

(** C2 (silent rejection).  In a reachable world, a registered player in
    state [(g, b)] submits a valid encrypted request whose 32-bit id [k] is
    either outside 1..4, or is a catalogue id whose cost exceeds [g]: the call
    succeeds (no revert) and gold and lastBuilding still decrypt to [g] and
    [b]. *)
Theorem C2_silent_rejection w a g b k prf :
  reachable w → isRegistered w a = true →
  goldOf w a = g → lastBuildingOf w a = b →
  0 ≤ k < 2 ^ 32 → proof_verifies prf = true →
  ¬ In k [1; 2; 3; 4] ∨ (∃ c, In (k, c) catalog ∧ g < c) →
  ∃ w', transact w (mkMessage a (ConstructBuilding {| ext_clear := k |} prf))
          = (w', None) ∧
        goldOf w' a = g ∧ lastBuildingOf w' a = b.
Proof.
  intros Hw Hreg Hg Hb Hk Hprf Hrej.
  destruct (transact_build w a {| ext_clear := k |} prf (reachable_wf w Hw) Hreg Hprf)
    as (w' & Htx & hg & hb & R & Bg & Bb & _).
  cbn [ext_clear] in *. rewrite Hg, Hb in *.
  assert (validPairOf (wrap32 k) && (selectedCostOf (wrap32 k) <=? g) = false) as Hno.
  { destruct Hrej as [Hout|(c & Hcat & Hlt)].
    - destruct (outside_catalog k Hk Hout) as (-> & ->). done.
    - destruct (catalog_resolved k c Hcat) as (-> & -> & -> & _).
      cbn. apply Z.leb_gt. lia. }
  rewrite Hno in *.
  destruct (rewritten_self _ _ _ _ _ _ _ _ _ R Bg Bb) as (_ & Hg' & Hb' & _).
  exists w'. repeat split; [done| |done]. rewrite Hg'. lia.
Qed.

Lemma C2_witness :
  ∃ w', transact alice_joined (build alice 7) = (w', None) ∧
        goldOf w' alice = 1000 ∧ lastBuildingOf w' alice = 0.
Proof.
  apply (C2_silent_rejection alice_joined alice 1000 0 7 proven).
  - exists 5%N, [join alice]. reflexivity.
  - reflexivity.
  - reflexivity.
  - reflexivity.
  - lia.
  - reflexivity.
  - left. cbn. lia.
Defined.

(** C3 (monotonic gold).  Starting from any reachable world in which the
    player is registered, and along any sequence of calls (by anybody, joins
    and constructions alike), the gold the player decrypts after each call is
    at most the gold decrypted before that call. *)
Theorem C3_gold_never_increases w a ms m :
  reachable w → isRegistered w a = true →
  goldOf (run w (ms ++ [m])) a ≤ goldOf (run w ms) a ∧
  goldOf (run w ms) a ≤ goldOf w a.
Proof.
  intros Hw Hreg. pose proof (reachable_wf w Hw) as W.
  destruct (run_step w ms W) as [W' Hms]. destruct (Hms a Hreg) as [Hreg' Hle].
  split; [|done]. rewrite run_snoc.
  by destruct (transact_step (run w ms) m W') as [_ Hm], (Hm a Hreg').
Qed.

Lemma C3_witness :
  goldOf (run alice_joined ([build alice 2; join bob] ++ [build alice 4])) alice
    ≤ goldOf (run alice_joined [build alice 2; join bob]) alice ∧
  goldOf (run alice_joined [build alice 2; join bob]) alice
    ≤ goldOf alice_joined alice.
Proof.
  apply (C3_gold_never_increases alice_joined alice
           [build alice 2; join bob] (build alice 4)).
  - exists 5%N, [join alice]. reflexivity.
  - reflexivity.
Defined.

(** C4 (inclusive affordability).  In a reachable world, a registered player
    whose gold decrypts to exactly the cost [c] of the requested catalogue id
    [k] gets the building: afterwards gold decrypts to 0 and lastBuilding to
    [k].  For instance gold 100 and id 1. *)
Theorem C4_exact_balance_buys w a k c prf :
  reachable w → isRegistered w a = true → goldOf w a = c →
  In (k, c) catalog → proof_verifies prf = true →
  ∃ w', transact w (mkMessage a (ConstructBuilding {| ext_clear := k |} prf))
          = (w', None) ∧
        goldOf w' a = 0 ∧ lastBuildingOf w' a = k.
Proof.
  intros Hw Hreg Hg Hcat Hprf.
  destruct (catalog_resolved k c Hcat) as (Hk & Hc & Hv & _).
  destruct (transact_build w a {| ext_clear := k |} prf (reachable_wf w Hw) Hreg Hprf)
    as (w' & Htx & hg & hb & R & Bg & Bb & _).
  cbn [ext_clear] in *. rewrite Hk, Hc, Hv, Hg, Z.leb_refl in *. cbn [andb] in *.
  destruct (rewritten_self _ _ _ _ _ _ _ _ _ R Bg Bb) as (_ & Hg' & Hb' & _).
  exists w'. split; [done|]. split; [|done]. rewrite Hg'. lia.
Qed.

Lemma C4_witness :
  goldOf alice_at_100 alice = 100 ∧
  ∃ w', transact alice_at_100 (build alice 1) = (w', None) ∧
        goldOf w' alice = 0 ∧ lastBuildingOf w' alice = 1.
Proof.
  split; [reflexivity|].
  apply (C4_exact_balance_buys alice_at_100 alice 1 100 proven).
  - exists 5%N, [join alice; build alice 4; build alice 4; build alice 1].
    reflexivity.
  - reflexivity.
  - reflexivity.
  - cbn. tauto.
  - reflexivity.
Defined.

(** C5 (single registration).  Once a [joinGame] of an identity has succeeded
    in a reachable world, every later [joinGame] of that identity -- the very
    next call or one after any further calls -- reverts with
    "Player already registered" and leaves the whole world, hence the
    player's gold, lastBuilding and registered flag, as it was. *)
Theorem C5_second_join_rejected w a w1 ms :
  reachable w → transact w (join a) = (w1, None) →
  transact w1 (join a) = (w1, Some AlreadyRegistered) ∧
  transact (run w1 ms) (join a) = (run w1 ms, Some AlreadyRegistered) ∧
  isRegistered (run w1 ms) a = true.
Proof.
  intros Hw Htx.
  assert (isRegistered w a = false) as Hnew.
  { destruct (isRegistered w a) eqn:Hreg; [|done].
    rewrite transact_join_registered in Htx by done. discriminate. }
  destruct (transact_join w a Hnew) as (w' & Htx' & hg & hb & R & Bg & Bb).
  rewrite Htx in Htx'. injection Htx' as <-.
  destruct (rewritten_self _ _ _ _ _ _ _ _ _ R Bg Bb) as (Hreg1 & _).
  assert (wf w1) as W1.
  { replace w1 with (transact w (join a)).1 by (by rewrite Htx).
    apply transact_step, reachable_wf, Hw. }
  destruct (run_step w1 ms W1) as [_ Hms]. destruct (Hms a Hreg1) as [Hreg2 _].
  repeat split; [by apply transact_join_registered..|done].
Qed.

Lemma C5_witness :
  transact alice_joined (join alice) = (alice_joined, Some AlreadyRegistered) ∧
  transact (run alice_joined [build alice 3]) (join alice)
    = (run alice_joined [build alice 3], Some AlreadyRegistered) ∧
  isRegistered (run alice_joined [build alice 3]) alice = true.
Proof.
  apply (C5_second_join_rejected (genesis 5%N) alice alice_joined [build alice 3]).
  - exists 5%N, []. reflexivity.
  - reflexivity.
Defined.

(** C6 (starting allocation).  For an identity that is not yet registered,
    [joinGame] succeeds, and in the resulting world [getPlayerState] returns
    two handles that decrypt to gold 1000 and lastBuilding 0 together with
    the plaintext flag [true]; [isPlayerRegistered] answers [true]. *)
Theorem C6_starting_allocation w a :
  isRegistered w a = false →
  ∃ w' hg hb,
    transact w (join a) = (w', None) ∧
    getPlayerState a w' = Done (hg, hb, true) w' ∧
    decrypt32 w' hg = 1000 ∧ decrypt32 w' hb = 0 ∧
    isPlayerRegistered a w' = Done true w' ∧
    goldOf w' a = 1000 ∧ lastBuildingOf w' a = 0 ∧ isRegistered w' a = true.
Proof.
  intros Hnew.
  destruct (transact_join w a Hnew) as (w' & Htx & hg & hb & R & Bg & Bb).
  destruct (rewritten_self _ _ _ _ _ _ _ _ _ R Bg Bb) as (Hreg & Hg & Hb & Hp).
  exists w', hg, hb. split; [done|].
  unfold getPlayerState, isPlayerRegistered, sload, require.
  cbv [mbind Tx_bind mret Tx_ret]. rewrite Hp. cbn. rewrite Hp. cbn.
  rewrite (decrypt32_bound _ _ _ Bg), (decrypt32_bound _ _ _ Bb).
  by repeat split.
Qed.

Lemma C6_witness :
  ∃ w' hg hb,
    transact (genesis 5%N) (join alice) = (w', None) ∧
    getPlayerState alice w' = Done (hg, hb, true) w' ∧
    decrypt32 w' hg = 1000 ∧ decrypt32 w' hb = 0 ∧
    isPlayerRegistered alice w' = Done true w' ∧
    goldOf w' alice = 1000 ∧ lastBuildingOf w' alice = 0 ∧
    isRegistered w' alice = true.
Proof. apply (C6_starting_allocation (genesis 5%N) alice). reflexivity. Defined.

Lemma transact_outcome w m :
  wf w →
  (∃ e, transact w m = (w, Some e)) ∨
  (∃ w' hg hb ev subs, transact w m = (w', None) ∧
     rewritten w w' (sender m) hg hb ev subs ∧
     (payload m = JoinGame ∨ isRegistered w (sender m) = true)).
Proof.
  intros W. destruct m as [s [|input prf]]; cbn [sender payload].
  - destruct (isRegistered w s) eqn:Hreg.
    + left. eexists. by apply transact_join_registered.
    + right. destruct (transact_join w s Hreg) as (w' & Htx & hg & hb & R & _).
      exists w', hg, hb. eauto 6.
  - destruct (isRegistered w s) eqn:Hreg; [destruct (proof_verifies prf) eqn:Hprf|].
    + right. destruct (transact_build w s input prf W Hreg Hprf)
        as (w' & Htx & hg & hb & R & _).
      exists w', hg, hb. eauto 6.
    + left. eexists. unfold transact, dispatch. cbn.
      by rewrite constructBuilding_unproven.
    + left. eexists. unfold transact, dispatch. cbn.
      by rewrite constructBuilding_unregistered.
Qed.

Lemma unregistered_of_absent w a : _players w !! a = None → isRegistered w a = false.
Proof. intros Hnone. unfold isRegistered. by rewrite lookup_total_alt, Hnone. Qed.

Lemma never_joined_absent w a ms :
  wf w → _players w !! a = None → Forall (λ m, m ≠ join a) ms →
  _players (run w ms) !! a = None.
Proof.
  revert w. induction ms as [|m ms IH]; intros w W Hnone Hms; [done|].
  apply Forall_cons in Hms as [Hm Hms]. rewrite run_cons.
  apply IH; [by apply transact_step| |done].
  destruct (transact_outcome w m W)
    as [[e ->]|(w' & hg & hb & ev & subs & -> & R & Hwho)]; [done|].
  cbn. rewrite (rw_players _ _ _ _ _ _ _ R).
  rewrite lookup_insert_ne; [done|]. intros <-.
  destruct m as [s c]. cbn in Hwho. destruct Hwho as [->|Hreg].
  - by apply Hm.
  - by rewrite (unregistered_of_absent w s) in Hreg.
Qed.

(** C7 (gating before registration).  After any history of calls since
    deployment in which the identity never called [joinGame]:
    [constructBuilding] by that identity reverts with "Player not registered"
    whatever it submits and changes nothing, the three getters revert with
    the same message, [isPlayerRegistered] returns [false] without failing,
    and the mapping holds no record for the identity. *)
Theorem C7_unregistered_gating self ms a input prf :
  Forall (λ m, m ≠ join a) ms →
  transact (run (genesis self) ms) (mkMessage a (ConstructBuilding input prf))
    = (run (genesis self) ms, Some NotRegistered) ∧
  getPlayerGold a (run (genesis self) ms) = Reverted NotRegistered ∧
  getPlayerLastBuilding a (run (genesis self) ms) = Reverted NotRegistered ∧
  getPlayerState a (run (genesis self) ms) = Reverted NotRegistered ∧
  isPlayerRegistered a (run (genesis self) ms) = Done false (run (genesis self) ms) ∧
  _players (run (genesis self) ms) !! a = None.
Proof.
  intros Hms.
  pose proof (never_joined_absent (genesis self) a ms (genesis_wf self)
                (lookup_empty a) Hms) as Hnone.
  pose proof (unregistered_of_absent _ a Hnone) as Hreg.
  set (w := run (genesis self) ms) in *.
  split.
  { unfold transact, dispatch. cbn. by rewrite constructBuilding_unregistered. }
  unfold isRegistered in Hreg.
  unfold getPlayerGold, getPlayerLastBuilding, getPlayerState, isPlayerRegistered,
    sload, require.
  cbv [mbind Tx_bind mret Tx_ret]. rewrite Hreg. by repeat split.
Qed.

Lemma C7_witness :
  transact (run (genesis 5%N) [join bob; build bob 1]) (build alice 1)
    = (run (genesis 5%N) [join bob; build bob 1], Some NotRegistered) ∧
  getPlayerGold alice (run (genesis 5%N) [join bob; build bob 1])
    = Reverted NotRegistered ∧
  getPlayerLastBuilding alice (run (genesis 5%N) [join bob; build bob 1])
    = Reverted NotRegistered ∧
  getPlayerState alice (run (genesis 5%N) [join bob; build bob 1])
    = Reverted NotRegistered ∧
  isPlayerRegistered alice (run (genesis 5%N) [join bob; build bob 1])
    = Done false (run (genesis 5%N) [join bob; build bob 1]) ∧
  _players (run (genesis 5%N) [join bob; build bob 1]) !! alice = None.
Proof.
  apply (C7_unregistered_gating 5%N [join bob; build bob 1] alice
           {| ext_clear := 1 |} proven).
  repeat constructor; discriminate.
Defined.

(** C9 (price list).  [getBuildingPrices] takes no world and cannot revert;
    it is the list of the four costs 100, 200, 300, 400 in the order
    Barracks, Farm, Factory, Wall. *)
Theorem C9_building_prices :
  getBuildingPrices = [100; 200; 300; 400] ∧
  getBuildingPrices = [BARRACKS_COST; FARM_COST; FACTORY_COST; WALL_COST] ∧
  length getBuildingPrices = 4%nat.
Proof. by repeat split. Qed.

(** C10 (the subtraction never wraps).  In a reachable world every
    [FHE.sub] evaluated so far took zero or a catalogue cost away from a
    32-bit balance at least as large, so reducing the difference modulo 2^32
    changed nothing.  And each further valid [constructBuilding] of a
    registered player with gold [g] evaluates exactly one more subtraction,
    [g - y], where [y] is zero or the cost of the requested catalogue id,
    [y <= g], and the stored gold decrypts to the integer [g - y]. *)
Theorem C10_subtraction_never_wraps w :
  reachable w →
  Forall (λ ab, sub_exact ab ∧ wrap32 (ab.1 - ab.2) = ab.1 - ab.2) (sub_operands w) ∧
  ∀ a input prf, isRegistered w a = true → proof_verifies prf = true →
    ∃ w' y,
      transact w (mkMessage a (ConstructBuilding input prf)) = (w', None) ∧
      sub_operands w' = (goldOf w a, y) :: sub_operands w ∧
      (y = 0 ∨ In (wrap32 (ext_clear input), y) catalog) ∧
      0 ≤ y ≤ goldOf w a ∧
      goldOf w' a = goldOf w a - y ∧
      wrap32 (goldOf w a - y) = goldOf w a - y.
Proof.
  intros Hw. pose proof (reachable_wf w Hw) as W. split.
  - eapply Forall_impl; [apply W|].
    intros [x y] Hxy. split; [done|].
    destruct Hxy as (? & ? & _). cbn in *. apply wrap32_small. lia.
  - intros a input prf Hreg Hprf.
    destruct (transact_build w a input prf W Hreg Hprf)
      as (w' & Htx & hg & hb & R & Bg & Bb & Hy).
    destruct (rewritten_self _ _ _ _ _ _ _ _ _ R Bg Bb) as (_ & Hg' & _).
    destruct Hy as (Hy1 & Hy2 & _). cbn [fst snd] in Hy1, Hy2.
    eexists w', _. split; [done|]. split; [apply R|].
    split; [|split; [done|split; [done|apply wrap32_small; lia]]].
    destruct (selectedCostOf_cases (wrap32 (ext_clear input))) as [H|[H|[H|[H|H]]]];
      destruct H as (Hk & -> & ->); cbn [andb]; [..|by left];
      (match goal with |- context [?c <=? ?g] => destruct (c <=? g) end;
       [right; rewrite Hk; cbn; auto 6|by left]).
Qed.

Lemma C10_witness :
  Forall (λ ab, sub_exact ab ∧ wrap32 (ab.1 - ab.2) = ab.1 - ab.2)
    (sub_operands alice_at_100) ∧
  ∃ w' y,
    transact alice_at_100 (build alice 1) = (w', None) ∧
    sub_operands w' = (goldOf alice_at_100 alice, y) :: sub_operands alice_at_100 ∧
    (y = 0 ∨ In (wrap32 1, y) catalog) ∧
    0 ≤ y ≤ goldOf alice_at_100 alice ∧
    goldOf w' alice = goldOf alice_at_100 alice - y ∧
    wrap32 (goldOf alice_at_100 alice - y) = goldOf alice_at_100 alice - y.
Proof.
  destruct (C10_subtraction_never_wraps alice_at_100) as [Hpast Hnext].
  - exists 5%N, [join alice; build alice 4; build alice 4; build alice 1].
    reflexivity.
  - split; [exact Hpast|].
    apply (Hnext alice {| ext_clear := 1 |} proven); reflexivity.
Defined.

(** ** Further properties of the contract *)

Lemma rewritten_trace w w' a hg hb ev subs :
  rewritten w w' a hg hb ev subs →
  rewritten w w' a hg hb ev (sub_operands w').
Proof. intros [? ? ? ? ? ?]. by constructor. Qed.

(** Every way a call can go, with what it leaves behind. *)
Lemma transact_cases w m :
  wf w →
  (∃ e, rejection w m = Some e ∧ transact w m = (w, Some e)) ∨
  (rejection w m = None ∧
   ∃ w' hg hb g b,
     transact w m = (w', None) ∧
     rewritten w w' (sender m) hg hb (emitted m) (sub_operands w') ∧
     bound w' hg (ClearU32 g) ∧ bound w' hb (ClearU32 b) ∧
     match payload m with
     | JoinGame => g = STARTING_GOLD ∧ b = 0
     | ConstructBuilding input _ =>
         let k := wrap32 (ext_clear input) in
         let g0 := goldOf w (sender m) in
         let ok := validPairOf k && (selectedCostOf k <=? g0) in
         g = g0 - (if ok then selectedCostOf k else 0) ∧
         b = (if ok then k else lastBuildingOf w (sender m))
     end).
Proof.
  intros W. destruct m as [s [|input prf]]; unfold rejection, emitted;
    cbn [sender payload].
  - destruct (isRegistered w s) eqn:Hreg.
    + left. eexists. split; [done|]. by apply transact_join_registered.
    + right. split; [done|].
      destruct (transact_join w s Hreg) as (w' & Htx & hg & hb & R & Bg & Bb).
      exists w', hg, hb, STARTING_GOLD, 0.
      split; [done|]. split; [by eapply rewritten_trace|].
      split; [exact Bg|]. split; [exact Bb|]. by split.
  - destruct (isRegistered w s) eqn:Hreg; cbn [negb];
      [destruct (proof_verifies prf) eqn:Hprf; cbn [negb]|].
    + right. split; [done|].
      destruct (transact_build w s input prf W Hreg Hprf)
        as (w' & Htx & hg & hb & R & Bg & Bb & _).
      eexists w', hg, hb, _, _.
      split; [done|]. split; [by eapply rewritten_trace|].
      split; [exact Bg|]. split; [exact Bb|]. by split.
    + left. eexists. split; [done|]. unfold transact, dispatch. cbn.
      by rewrite constructBuilding_unproven.
    + left. eexists. split; [done|]. unfold transact, dispatch. cbn.
      by rewrite constructBuilding_unregistered.
Qed.

(** Induction over the history of a reachable world. *)
Lemma reachable_invariant (P : world → Prop) :
  (∀ self, P (genesis self)) →
  (∀ w m, wf w → P w → P (transact w m).1) →
  ∀ w, reachable w → P w.
Proof.
  intros Hinit Hstep w (self & ms & ->).
  assert (∀ ms w, wf w → P w → P (run w ms)) as Hrun.
  { clear -Hstep. induction ms as [|m ms IH]; intros w W HP; [done|].
    rewrite run_cons. apply IH; [by apply transact_step|by apply Hstep]. }
  apply Hrun; [apply genesis_wf|apply Hinit].
Qed.

Lemma rewritten_elsewhere w w' s hg hb ev subs a :
  rewritten w w' s hg hb ev subs → a ≠ s →
  _players w' !! a = _players w !! a ∧ _players w' !!! a = _players w !!! a.
Proof.
  intros R Hne. rewrite (rw_players _ _ _ _ _ _ _ R).
  by rewrite lookup_insert_ne, lookup_total_insert_ne.
Qed.

Lemma transact_standing w m :
  wf w →
  (∀ a, a ≠ sender m → standing (transact w m).1 a = standing w a) ∧
  standing (transact w m).1 (sender m) =
    match payload m, standing w (sender m) with
    | JoinGame, None => Some (STARTING_GOLD, 0)
    | ConstructBuilding input prf, Some (g, b) =>
        let k := wrap32 (ext_clear input) in
        if proof_verifies prf && validPairOf k && (selectedCostOf k <=? g)
        then Some (g - selectedCostOf k, k) else Some (g, b)
    | _, st => st
    end.
Proof.
  intros W.
  destruct (transact_cases w m W)
    as [(e & Hrej & ->)|(Hrej & w' & hg & hb & g & b & -> & R & Bg & Bb & Hgb)];
    cbn [fst].
  - split; [done|]. unfold rejection in Hrej. unfold standing.
    destruct (payload m) as [|input prf], (isRegistered w (sender m)); try done.
    cbn in Hrej. destruct (proof_verifies prf); [done|]. by cbn.
  - split.
    + intros a Hne. unfold standing.
      destruct (isRegistered w a) eqn:Hreg.
      * by destruct (rewritten_other _ _ _ _ _ _ _ a W R Hne Hreg) as (-> & -> & ->).
      * unfold isRegistered in *.
        destruct (rewritten_elsewhere _ _ _ _ _ _ _ a R Hne) as [_ ->].
        by rewrite Hreg.
    + destruct (rewritten_self _ _ _ _ _ _ _ _ _ R Bg Bb) as (Hreg' & Hg' & Hb' & _).
      unfold standing at 1. rewrite Hreg', Hg', Hb'.
      unfold rejection in Hrej. unfold standing.
      destruct (payload m) as [|input prf], (isRegistered w (sender m)); try done.
      * by destruct Hgb as [-> ->].
      * cbn in Hrej. destruct (proof_verifies prf); [|done].
        cbn zeta in Hgb. destruct Hgb as [-> ->]. cbn [andb].
        by destruct (_ && _); rewrite ?Z.sub_0_r.
Qed.

(** X1 (failure modes).  In a reachable world a call is rejected exactly as
    its guards say, in source order: [joinGame] with "Player already
    registered" iff the caller is registered; [constructBuilding] with
    "Player not registered" iff the caller is not registered -- whatever the
    input proof -- and otherwise with the library's proof error iff the proof
    does not verify.  A rejected call returns the world untouched, and no
    other error exists. *)
Theorem X1_failure_modes w m :
  reachable w →
  (transact w m).2 =
    match payload m with
    | JoinGame =>
        if isRegistered w (sender m) then Some AlreadyRegistered else None
    | ConstructBuilding _ prf =>
        if negb (isRegistered w (sender m)) then Some NotRegistered
        else if negb (proof_verifies prf) then Some InvalidProof
        else None
    end ∧
  ((transact w m).2 ≠ None → (transact w m).1 = w).
Proof.
  intros Hw.
  destruct (transact_cases w m (reachable_wf w Hw))
    as [(e & Hrej & ->)|(Hrej & w' & hg & hb & g & b & -> & _)];
    cbn [fst snd]; unfold rejection in Hrej; by rewrite Hrej.
Qed.

Lemma X1_witness :
  (transact alice_joined (mkMessage bob (ConstructBuilding {| ext_clear := 1 |}
                                           {| proof_verifies := false |}))).2 =
    (if negb (isRegistered alice_joined bob) then Some NotRegistered
     else if negb false then Some InvalidProof else None) ∧
  ((transact alice_joined (mkMessage bob (ConstructBuilding {| ext_clear := 1 |}
                                            {| proof_verifies := false |}))).2 ≠ None →
   (transact alice_joined (mkMessage bob (ConstructBuilding {| ext_clear := 1 |}
                                            {| proof_verifies := false |}))).1
     = alice_joined).
Proof.
  apply (X1_failure_modes alice_joined
           (mkMessage bob (ConstructBuilding {| ext_clear := 1 |}
                             {| proof_verifies := false |}))).
  exists 5%N, [join alice]. reflexivity.
Defined.

(** X2 (one event per accepted call).  In a reachable world an accepted call
    appends exactly one event naming its caller -- [PlayerJoined] for
    [joinGame], [BuildingAttempted] for [constructBuilding], also when the
    attempt is silently rejected for an unknown id or lack of gold -- and a
    reverted call appends nothing. *)
Theorem X2_one_event_per_call w m :
  reachable w →
  events (transact w m).1 =
    match (transact w m).2 with
    | None => emitted m :: events w
    | Some _ => events w
    end.
Proof.
  intros Hw.
  destruct (transact_cases w m (reachable_wf w Hw))
    as [(e & Hrej & ->)|(Hrej & w' & hg & hb & g & b & -> & R & _)];
    cbn [fst snd]; [done|apply R].
Qed.

Lemma X2_witness :
  events (transact alice_joined (build alice 7)).1 =
    match (transact alice_joined (build alice 7)).2 with
    | None => emitted (build alice 7) :: events alice_joined
    | Some _ => events alice_joined
    end.
Proof.
  apply (X2_one_event_per_call alice_joined (build alice 7)).
  exists 5%N, [join alice]. reflexivity.
Defined.

(** X3 (isolation).  In a reachable world a call writes the storage slot of
    its caller only: the record of every other address is the same afterwards,
    and every other player's standing (registration, decrypted gold and last
    building) is unchanged. *)
Theorem X3_isolation w m a :
  reachable w → a ≠ sender m →
  _players (transact w m).1 !! a = _players w !! a ∧
  standing (transact w m).1 a = standing w a.
Proof.
  intros Hw Hne. pose proof (reachable_wf w Hw) as W.
  split; [|by apply transact_standing].
  destruct (transact_cases w m W)
    as [(e & Hrej & ->)|(Hrej & w' & hg & hb & g & b & -> & R & _)];
    cbn [fst]; [done|].
  by destruct (rewritten_elsewhere _ _ _ _ _ _ _ a R Hne).
Qed.

Lemma X3_witness :
  _players (transact (run (genesis 5%N) [join alice; join bob]) (build bob 3)).1 !! alice
    = _players (run (genesis 5%N) [join alice; join bob]) !! alice ∧
  standing (transact (run (genesis 5%N) [join alice; join bob]) (build bob 3)).1 alice
    = standing (run (genesis 5%N) [join alice; join bob]) alice.
Proof.
  apply (X3_isolation (run (genesis 5%N) [join alice; join bob]) (build bob 3) alice).
  - exists 5%N, [join alice; join bob]. reflexivity.
  - discriminate.
Defined.

(** X4 (plaintext reference).  On the caller's standing, the contract behaves
    as the plaintext game it encrypts: joining gives (1000, 0) to a newcomer
    and changes nothing for a member; a construction request of a member
    holding [(g, b)] gives [(g - cost, id)] when the proof verifies, the id is
    1..4 and the cost is at most [g], and leaves [(g, b)] otherwise; a
    non-member stays a non-member.  So the result depends on the call and the
    caller's own standing only. *)
Theorem X4_plaintext_reference w m :
  reachable w →
  standing (transact w m).1 (sender m) =
    match payload m, standing w (sender m) with
    | JoinGame, None => Some (1000, 0)
    | JoinGame, Some st => Some st
    | ConstructBuilding input prf, Some (g, b) =>
        let k := wrap32 (ext_clear input) in
        let cost := if k =? 1 then 100 else if k =? 2 then 200
                    else if k =? 3 then 300 else if k =? 4 then 400 else 0 in
        if proof_verifies prf && ((1 <=? k) && (k <=? 4)) && (cost <=? g)
        then Some (g - cost, k) else Some (g, b)
    | ConstructBuilding _ _, None => None
    end.
Proof.
  intros Hw. destruct (transact_standing w m (reachable_wf w Hw)) as [_ ->].
  destruct (payload m) as [|input prf], (standing w (sender m)) as [[g b]|];
    try done.
  cbn zeta. set (k := wrap32 (ext_clear input)).
  destruct (selectedCostOf_cases k) as [H|[H|[H|[H|H]]]];
    destruct H as (Hk & -> & ->).
  1-4: by rewrite Hk.
  replace ((1 <=? k) && (k <=? 4)) with false by lia.
  by rewrite !andb_false_r.
Qed.

Lemma X4_witness :
  standing (transact alice_joined (build alice 3)).1 (sender (build alice 3)) =
    match payload (build alice 3), standing alice_joined (sender (build alice 3)) with
    | JoinGame, None => Some (1000, 0)
    | JoinGame, Some st => Some st
    | ConstructBuilding input prf, Some (g, b) =>
        let k := wrap32 (ext_clear input) in
        let cost := if k =? 1 then 100 else if k =? 2 then 200
                    else if k =? 3 then 300 else if k =? 4 then 400 else 0 in
        if proof_verifies prf && ((1 <=? k) && (k <=? 4)) && (cost <=? g)
        then Some (g - cost, k) else Some (g, b)
    | ConstructBuilding _ _, None => None
    end.
Proof.
  apply (X4_plaintext_reference alice_joined (build alice 3)).
  exists 5%N, [join alice]. reflexivity.
Defined.

(** X5 (calls of different callers commute).  From a reachable world, two
    calls by different callers leave every address with the same standing
    in either order. *)
Theorem X5_different_callers_commute w m1 m2 a :
  reachable w → sender m1 ≠ sender m2 →
  standing (run w [m1; m2]) a = standing (run w [m2; m1]) a.
Proof.
  intros Hw Hne. pose proof (reachable_wf w Hw) as W.
  rewrite !run_cons. change (run ?x []) with x.
  pose proof (transact_step w m1 W) as [W1 _].
  pose proof (transact_step w m2 W) as [W2 _].
  destruct (transact_standing w m1 W) as [O1 S1].
  destruct (transact_standing w m2 W) as [O2 S2].
  destruct (transact_standing _ m2 W1) as [O12 S12].
  destruct (transact_standing _ m1 W2) as [O21 S21].
  destruct (decide (a = sender m1)) as [->|N1];
    [|destruct (decide (a = sender m2)) as [->|N2]].
  - rewrite O12 by done. rewrite S21, S1. by rewrite O2.
  - rewrite O21 by done. rewrite S12, S2. by rewrite O1 by done.
  - by rewrite O12, O21, O1, O2.
Qed.

Lemma X5_witness :
  standing (run (run (genesis 5%N) [join alice; join bob]) [build alice 4; build bob 1]) alice
  = standing (run (run (genesis 5%N) [join alice; join bob]) [build bob 1; build alice 4]) alice.
Proof.
  apply (X5_different_callers_commute (run (genesis 5%N) [join alice; join bob])
           (build alice 4) (build bob 1) alice).
  - exists 5%N, [join alice; join bob]. reflexivity.
  - discriminate.
Defined.

(** X6 (registration is permanent).  Nothing unregisters a player: whoever is
    registered in a reachable world is registered after any further calls, and
    the contract address recorded for [allowThis] never changes. *)
Theorem X6_registration_permanent w a ms :
  reachable w → isRegistered w a = true →
  isRegistered (run w ms) a = true ∧ this (run w ms) = this w.
Proof.
  intros Hw Hreg. pose proof (reachable_wf w Hw) as W.
  split; [by apply run_step|].
  clear Hreg Hw. revert w W. induction ms as [|m ms IH]; intros w W; [done|].
  rewrite run_cons, IH by (by apply transact_step).
  destruct (transact_cases w m W)
    as [(e & _ & ->)|(_ & w' & hg & hb & g & b & -> & R & _)]; [done|apply R].
Qed.

Lemma X6_witness :
  isRegistered (run alice_joined [build alice 4; join bob; join alice]) alice = true ∧
  this (run alice_joined [build alice 4; join bob; join alice]) = this alice_joined.
Proof.
  apply (X6_registration_permanent alice_joined alice
           [build alice 4; join bob; join alice]).
  - exists 5%N, [join alice]. reflexivity.
  - reflexivity.
Defined.

Lemma standing_shape w a g b :
  reachable w → standing w a = Some (g, b) →
  ((g = 1000 ∧ b = 0) ∨ (0 ≤ g ≤ 900 ∧ 1 ≤ b ≤ 4)) ∧ (100 | g).
Proof.
  intros Hw. revert a g b.
  apply (reachable_invariant (λ w, ∀ a g b, standing w a = Some (g, b) →
           ((g = 1000 ∧ b = 0) ∨ (0 ≤ g ≤ 900 ∧ 1 ≤ b ≤ 4)) ∧ (100 | g)));
    [| |exact Hw].
  - intros self a g b. unfold standing, isRegistered. cbn.
    by rewrite lookup_total_empty.
  - clear w Hw. intros w m W IH a g b.
    destruct (transact_standing w m W) as [Hother Hself].
    destruct (decide (a = sender m)) as [->|Hne]; [|rewrite Hother by done; apply IH].
    rewrite Hself.
    destruct (payload m) as [|input prf], (standing w (sender m)) as [[g0 b0]|] eqn:Hst;
      try done; try (intros [= <- <-]; by eapply IH).
    + intros [= <- <-]. split; [by left|]. by exists 10.
    + specialize (IH _ _ _ Hst). cbn zeta.
      destruct (_ && _) eqn:Hok; intros [= <- <-]; [|done].
      apply andb_prop in Hok as [Hok Hle]. apply andb_prop in Hok as [_ Hv].
      apply Z.leb_le in Hle. destruct IH as [IH [q Hq]].
      destruct (selectedCostOf_cases (wrap32 (ext_clear input))) as [H|[H|[H|[H|H]]]];
        destruct H as (Hk & Hc & Hv'); rewrite Hc in *; [..|congruence].
      * split; [lia|]. exists (q - 1). lia.
      * split; [lia|]. exists (q - 2). lia.
      * split; [lia|]. exists (q - 3). lia.
      * split; [lia|]. exists (q - 4). lia.
Qed.

(** X7 (what a balance can be).  In a reachable world a registered player
    either has never bought anything -- gold 1000, last building 0 -- or holds
    between 0 and 900 gold with a last building in 1..4; in both cases gold is
    a multiple of 100. *)
Theorem X7_balance_shape w a g b :
  reachable w → standing w a = Some (g, b) →
  ((g = 1000 ∧ b = 0) ∨ (0 ≤ g ≤ 900 ∧ 1 ≤ b ≤ 4)) ∧ (100 | g).
Proof. apply standing_shape. Qed.

Lemma X7_witness :
  ((100 = 1000 ∧ 1 = 0) ∨ (0 ≤ 100 ≤ 900 ∧ 1 ≤ 1 ≤ 4)) ∧ (100 | 100).
Proof.
  apply (X7_balance_shape alice_at_100 alice 100 1).
  - exists 5%N, [join alice; build alice 4; build alice 4; build alice 1].
    reflexivity.
  - reflexivity.
Defined.

(** X8 (registration, records and events agree).  In a reachable world, for
    every address: the mapping holds a record for it iff it is registered;
    the log holds exactly one [PlayerJoined] for it if it is registered and
    none otherwise; and a [BuildingAttempted] for it is logged only if it is
    registered. *)
Theorem X8_registration_ledger w a :
  reachable w →
  (is_Some (_players w !! a) ↔ isRegistered w a = true) ∧
  length (filter (PlayerJoined a =.) (events w)) =
    (if isRegistered w a then 1%nat else 0%nat) ∧
  (BuildingAttempted a ∈ events w → isRegistered w a = true).
Proof.
  intros Hw. revert a.
  apply (reachable_invariant (λ w, ∀ a,
           (is_Some (_players w !! a) ↔ isRegistered w a = true) ∧
           length (filter (PlayerJoined a =.) (events w)) =
             (if isRegistered w a then 1%nat else 0%nat) ∧
           (BuildingAttempted a ∈ events w → isRegistered w a = true)));
    [| |exact Hw].
  - intros self a. unfold isRegistered. cbn. rewrite lookup_total_empty, lookup_empty.
    cbn. repeat split; try done.
    by intros ?%elem_of_nil.
  - clear w Hw. intros w m W IH a.
    destruct (transact_cases w m W)
      as [(e & _ & ->)|(Hrej & w' & hg & hb & g & b & -> & R & Bg & Bb & _)];
      cbn [fst]; [apply IH|].
    destruct (rewritten_self _ _ _ _ _ _ _ _ _ R Bg Bb) as (Hreg' & _).
    destruct (IH a) as (IHrec & IHlog & IHatt).
    rewrite (rw_events _ _ _ _ _ _ _ R).
    destruct (decide (a = sender m)) as [->|Hne].
    + rewrite Hreg', (rw_players _ _ _ _ _ _ _ R), lookup_insert_eq.
      split; [by split|]. split; [|done].
      unfold rejection, emitted in *.
      destruct (payload m) as [|input prf], (isRegistered w (sender m)); try done.
      rewrite filter_cons_True by done. cbn. by rewrite IHlog.
    + unfold isRegistered in *.
      destruct (rewritten_elsewhere _ _ _ _ _ _ _ a R Hne) as [-> ->].
      split; [done|].
      assert (emitted m ≠ PlayerJoined a ∧ emitted m ≠ BuildingAttempted a) as [N1 N2].
      { unfold emitted. destruct (payload m); split; congruence. }
      split.
      * by rewrite filter_cons_False by done.
      * rewrite elem_of_cons. intros [?|?]; [congruence|by apply IHatt].
Qed.

Lemma X8_witness :
  (is_Some (_players alice_at_100 !! alice) ↔ isRegistered alice_at_100 alice = true) ∧
  length (filter (PlayerJoined alice =.) (events alice_at_100)) =
    (if isRegistered alice_at_100 alice then 1%nat else 0%nat) ∧
  (BuildingAttempted alice ∈ events alice_at_100 →
   isRegistered alice_at_100 alice = true).
Proof.
  apply (X8_registration_ledger alice_at_100 alice).
  exists 5%N, [join alice; build alice 4; build alice 4; build alice 1].
  reflexivity.
Defined.

(** X9 (the current ciphertexts are always readable).  In a reachable world,
    for every registered player the gold and lastBuilding handles currently
    stored are granted both to the contract -- so that the next
    [constructBuilding] may compute on them -- and to the player. *)
Theorem X9_current_handles_granted w a :
  reachable w → isRegistered w a = true →
  (gold (_players w !!! a), this w) ∈ acl w ∧
  (gold (_players w !!! a), a) ∈ acl w ∧
  (lastBuilding (_players w !!! a), this w) ∈ acl w ∧
  (lastBuilding (_players w !!! a), a) ∈ acl w.
Proof.
  intros Hw. revert a.
  apply (reachable_invariant (λ w, ∀ a, isRegistered w a = true →
           (gold (_players w !!! a), this w) ∈ acl w ∧
           (gold (_players w !!! a), a) ∈ acl w ∧
           (lastBuilding (_players w !!! a), this w) ∈ acl w ∧
           (lastBuilding (_players w !!! a), a) ∈ acl w));
    [| |exact Hw].
  - intros self a. unfold isRegistered. cbn. by rewrite lookup_total_empty.
  - clear w Hw. intros w m W IH a.
    destruct (transact_cases w m W)
      as [(e & _ & ->)|(Hrej & w' & hg & hb & g & b & -> & R & Bg & Bb & _)];
      cbn [fst]; [apply IH|].
    rewrite (rw_acl _ _ _ _ _ _ _ R), (rw_this _ _ _ _ _ _ _ R).
    destruct (decide (a = sender m)) as [->|Hne].
    + intros _. rewrite (rw_players _ _ _ _ _ _ _ R), lookup_total_insert_eq.
      cbn [gold lastBuilding]. rewrite !elem_of_union, !elem_of_singleton. tauto.
    + unfold isRegistered.
      destruct (rewritten_elsewhere _ _ _ _ _ _ _ a R Hne) as [_ ->].
      intros Hreg. destruct (IH a Hreg) as (? & ? & ? & ?).
      rewrite !elem_of_union. tauto.
Qed.

Lemma X9_witness :
  (gold (_players alice_at_100 !!! alice), this alice_at_100) ∈ acl alice_at_100 ∧
  (gold (_players alice_at_100 !!! alice), alice) ∈ acl alice_at_100 ∧
  (lastBuilding (_players alice_at_100 !!! alice), this alice_at_100) ∈ acl alice_at_100 ∧
  (lastBuilding (_players alice_at_100 !!! alice), alice) ∈ acl alice_at_100.
Proof.
  apply (X9_current_handles_granted alice_at_100 alice).
  - exists 5%N, [join alice; build alice 4; build alice 4; build alice 1].
    reflexivity.
  - reflexivity.
Defined.

(** X10 (who holds grants).  In a reachable world every grant on the
    access-control list goes to the contract itself or to a registered
    player, and further calls never take a grant away. *)
Theorem X10_grant_recipients w ms h x :
  reachable w → (h, x) ∈ acl w →
  (x = this w ∨ isRegistered w x = true) ∧ (h, x) ∈ acl (run w ms).
Proof.
  intros Hw Hin. split.
  - revert h x Hin.
    apply (reachable_invariant (λ w, ∀ h x, (h, x) ∈ acl w →
             x = this w ∨ isRegistered w x = true)); [| |exact Hw].
    + intros self h x. cbn. by intros ?%not_elem_of_empty.
    + clear w Hw. intros w m W IH h x.
      destruct (transact_step w m W) as [_ Hkeep].
      destruct (transact_cases w m W)
        as [(e & _ & ->)|(Hrej & w' & hg & hb & g & b & Htx & R & Bg & Bb & _)];
        cbn [fst]; [apply IH|].
      rewrite Htx in *. cbn [fst] in *.
      destruct (rewritten_self _ _ _ _ _ _ _ _ _ R Bg Bb) as (Hreg' & _).
      rewrite (rw_acl _ _ _ _ _ _ _ R), (rw_this _ _ _ _ _ _ _ R).
      rewrite !elem_of_union, !elem_of_singleton.
      intros [[[[H|H]|H]|H]|H]; try (injection H as -> ->; tauto).
      destruct (IH h x H) as [?|Hreg]; [tauto|]. right. by apply Hkeep.
  - pose proof (reachable_wf w Hw) as W. clear Hw.
    revert w W Hin. induction ms as [|m ms IH]; intros w W Hin; [done|].
    rewrite run_cons. apply IH; [by apply transact_step|].
    destruct (transact_cases w m W)
      as [(e & _ & ->)|(Hrej & w' & hg & hb & g & b & -> & R & _)];
      cbn [fst]; [done|].
    rewrite (rw_acl _ _ _ _ _ _ _ R), elem_of_union. by right.
Qed.

Lemma X10_witness :
  (alice = this alice_joined ∨ isRegistered alice_joined alice = true) ∧
  (gold (_players alice_joined !!! alice), alice)
    ∈ acl (run alice_joined [build alice 2; join bob]).
Proof.
  apply (X10_grant_recipients alice_joined [build alice 2; join bob]
           (gold (_players alice_joined !!! alice)) alice).
  - exists 5%N, [join alice]. reflexivity.
  - vm_compute. reflexivity.
Defined.

(** X11 (the read functions agree).  In any world and for any address,
    [isPlayerRegistered] returns the stored flag without failing; the three
    getters succeed exactly when that flag is set, return the stored handles,
    and [getPlayerState] then always reports [true]; otherwise all three
    revert with "Player not registered".  No read changes the world. *)
Theorem X11_reads_agree w a :
  isPlayerRegistered a w = Done (isRegistered w a) w ∧
  if isRegistered w a
  then getPlayerGold a w = Done (gold (_players w !!! a)) w ∧
       getPlayerLastBuilding a w = Done (lastBuilding (_players w !!! a)) w ∧
       getPlayerState a w =
         Done (gold (_players w !!! a), lastBuilding (_players w !!! a), true) w
  else getPlayerGold a w = Reverted NotRegistered ∧
       getPlayerLastBuilding a w = Reverted NotRegistered ∧
       getPlayerState a w = Reverted NotRegistered.
Proof.
  unfold isPlayerRegistered, getPlayerGold, getPlayerLastBuilding, getPlayerState,
    sload, require, isRegistered.
  cbv [mbind Tx_bind mret Tx_ret]. split; [done|].
  destruct (registered (_players w !!! a)) eqn:Hreg; cbn; by rewrite ?Hreg.
Qed.

(** X12 (the oblivious price lookup).  Given an issued handle encrypting [k],
    [_resolveBuildingCost] never reverts and returns a cost handle decrypting
    to [100 * k] when [k] is 1..4 and to 0 otherwise, and a validity handle
    decrypting to whether [k] is 1..4.  It leaves storage, grants and events
    alone and does not disturb the handle it was given. *)
Theorem X12_resolved_cost w id k :
  ciphertexts w !! id = Some (ClearU32 k) → (id < next_handle w)%N →
  ∃ hc hv w',
    _resolveBuildingCost id w = Done (hc, hv) w' ∧
    decrypt32 w' hc = (if (1 <=? k) && (k <=? 4) then 100 * k else 0) ∧
    decryptBool w' hv = ((1 <=? k) && (k <=? 4)) ∧
    decrypt32 w' id = k ∧
    _players w' = _players w ∧ acl w' = acl w ∧ events w' = events w.
Proof.
  intros Hid Hlt.
  assert (bound w id (ClearU32 k)) as B by done.
  destruct (wp_resolveBuildingCost id k w
    (λ r w', ∃ hc hv, r = (hc, hv) ∧ extends w w' ∧
       bound w' hc (ClearU32 (selectedCostOf k)) ∧
       bound w' hv (ClearBool (validPairOf k))) B)
    as ([hc hv] & w' & Hrun & hc' & hv' & [= <- <-] & E & Bc & Bv).
  { intros hc hv w' E _ Bc Bv. by exists hc, hv. }
  exists hc, hv, w'. split; [done|].
  rewrite (decrypt32_bound _ _ _ Bc), (decryptBool_bound _ _ _ Bv),
    (decrypt32_bound _ _ _ (bound_extends _ _ _ _ E B)).
  rewrite (ext_players _ _ E), (ext_acl _ _ E), (ext_events _ _ E).
  destruct (selectedCostOf_cases k) as [H|[H|[H|[H|H]]]];
    destruct H as (Hk & -> & ->).
  1-4: by rewrite Hk.
  replace ((1 <=? k) && (k <=? 4)) with false by lia. done.
Qed.

Lemma X12_witness :
  ∃ hc hv w',
    _resolveBuildingCost 1%N (new_ciphertext (ClearU32 3) (genesis 5%N))
      = Done (hc, hv) w' ∧
    decrypt32 w' hc = (if (1 <=? 3) && (3 <=? 4) then 100 * 3 else 0) ∧
    decryptBool w' hv = ((1 <=? 3) && (3 <=? 4)) ∧
    decrypt32 w' 1%N = 3 ∧
    _players w' = _players (new_ciphertext (ClearU32 3) (genesis 5%N)) ∧
    acl w' = acl (new_ciphertext (ClearU32 3) (genesis 5%N)) ∧
    events w' = events (new_ciphertext (ClearU32 3) (genesis 5%N)).
Proof.
  apply (X12_resolved_cost (new_ciphertext (ClearU32 3) (genesis 5%N)) 1%N 3).
  - reflexivity.
  - reflexivity.
Defined.

Lemma listed_price_charged w a i p prf :
  reachable w → isRegistered w a = true →
  getBuildingPrices !! i = Some p → proof_verifies prf = true →
  ∃ w',
    transact w (mkMessage a (ConstructBuilding {| ext_clear := Z.of_nat i + 1 |} prf))
      = (w', None) ∧
    standing w' a =
      if p <=? goldOf w a
      then Some (goldOf w a - p, Z.of_nat i + 1)
      else Some (goldOf w a, lastBuildingOf w a).
Proof.
  intros Hw Hreg Hp Hprf. pose proof (reachable_wf w Hw) as W.
  set (m := mkMessage a (ConstructBuilding {| ext_clear := Z.of_nat i + 1 |} prf)).
  destruct (transact_standing w m W) as [_ Hst].
  destruct (transact_cases w m W)
    as [(e & Hrej & _)|(_ & w' & hg & hb & g & b & Htx & _)].
  { unfold rejection in Hrej. cbn in Hrej. by rewrite Hreg, Hprf in Hrej. }
  exists w'. split; [done|]. rewrite Htx in Hst. cbn [fst sender payload m] in Hst.
  rewrite Hst. unfold standing. rewrite Hreg, Hprf. cbn [ext_clear andb].
  destruct i as [|[|[|[|i]]]]; cbn in Hp; try done; injection Hp as <-; done.
Qed.

(** X13 (the listed price is the price charged).  In a reachable world a
    registered player who validly requests the building at position [i] of
    [getBuildingPrices] (id [i + 1]) is charged exactly the listed price [p]
    when they hold at least [p], and is left as they were otherwise. *)
Theorem X13_listed_price_charged w a i p prf :
  reachable w → isRegistered w a = true →
  getBuildingPrices !! i = Some p → proof_verifies prf = true →
  ∃ w',
    transact w (mkMessage a (ConstructBuilding {| ext_clear := Z.of_nat i + 1 |} prf))
      = (w', None) ∧
    standing w' a =
      if p <=? goldOf w a
      then Some (goldOf w a - p, Z.of_nat i + 1)
      else Some (goldOf w a, lastBuildingOf w a).
Proof. apply listed_price_charged. Qed.

Lemma X13_witness :
  ∃ w',
    transact alice_at_100 (mkMessage alice (ConstructBuilding
                             {| ext_clear := Z.of_nat 2 + 1 |} proven))
      = (w', None) ∧
    standing w' alice =
      if 300 <=? goldOf alice_at_100 alice
      then Some (goldOf alice_at_100 alice - 300, Z.of_nat 2 + 1)
      else Some (goldOf alice_at_100 alice, lastBuildingOf alice_at_100 alice).
Proof.
  apply (X13_listed_price_charged alice_at_100 alice 2 300 proven).
  - exists 5%N, [join alice; build alice 4; build alice 4; build alice 1].
    reflexivity.
  - reflexivity.
  - reflexivity.
  - reflexivity.
Defined.

(** ** The clients *)

Lemma length_substring n m s :
  String.length (substring n m s) = (m `min` (String.length s - n))%nat.
Proof.
  revert n m. induction s as [|c s IH]; intros [|n] [|m];
    cbn [substring String.length]; rewrite ?IH; lia.
Qed.

Lemma length_append s1 s2 :
  String.length (s1 ++ s2) = (String.length s1 + String.length s2)%nat.
Proof. induction s1 as [|c s1 IH]; simpl; [done|by rewrite IH]. Qed.

Lemma substring_all s m : (String.length s ≤ m)%nat → substring 0 m s = s.
Proof.
  revert m. induction s as [|c s IH]; intros [|m] Hm; cbn in *;
    rewrite ?IH; try done; lia.
Qed.

Lemma substring_append_l n m s1 s2 :
  (n + m ≤ String.length s1)%nat →
  substring n m (s1 ++ s2) = substring n m s1.
Proof.
  revert n m. induction s1 as [|c s1 IH]; intros [|n] [|m] Hnm; simpl in *;
    rewrite ?IH; try done; try lia.
  all: by destruct s2.
Qed.

Lemma substring_append_r n m s1 s2 :
  substring (String.length s1 + n) m (s1 ++ s2) = substring n m s2.
Proof. induction s1 as [|c s1 IH]; simpl; [done|apply IH]. Qed.

Lemma slice_head s n :
  (n ≤ String.length s)%nat →
  GameApp.slice s 0 (Some (Z.of_nat n)) = substring 0 n s.
Proof.
  intros Hn. unfold GameApp.slice. cbn zeta.
  replace (0 <? 0) with false by done.
  replace (Z.of_nat n <? 0) with false by lia.
  rewrite Z.min_l, Z.min_l by lia. cbn [Z.to_nat].
  by rewrite Z.sub_0_r, Z.max_l, Nat2Z.id by lia.
Qed.

Lemma slice_tail s n :
  (0 < n ≤ String.length s)%nat →
  GameApp.slice s (- Z.of_nat n) None
    = substring (String.length s - n) n s.
Proof.
  intros Hn. unfold GameApp.slice. cbn zeta.
  replace (- Z.of_nat n <? 0) with true by lia.
  rewrite (Z.max_l (_ + _)) by lia.
  replace (Z.max _ 0) with (Z.of_nat n) by lia.
  rewrite Nat2Z.id. f_equal. lia.
Qed.

(** X14 (abbreviating a ciphertext handle).  [formatCiphertext] never returns
    the empty string and never more than 19 characters.  A missing or empty
    value reads "Not available", a value of up to 18 characters is shown as it
    is, and a longer one becomes exactly 19 characters: its first ten, three
    dots, its last six. *)
Theorem X14_formatCiphertext value :
  (1 ≤ String.length (GameApp.formatCiphertext value) ≤ 19)%nat ∧
  match value with
  | None => GameApp.formatCiphertext value = "Not available"%string
  | Some v =>
      if (String.length v =? 0)%nat
      then GameApp.formatCiphertext value = "Not available"%string
      else if (String.length v <=? 18)%nat
      then GameApp.formatCiphertext value = v
      else String.length (GameApp.formatCiphertext value) = 19%nat ∧
           substring 0 10 (GameApp.formatCiphertext value) = substring 0 10 v ∧
           substring 10 3 (GameApp.formatCiphertext value) = "..."%string ∧
           substring 13 6 (GameApp.formatCiphertext value)
             = substring (String.length v - 6) 6 v
  end.
Proof.
  destruct value as [v|]; cbn [GameApp.formatCiphertext]; [|by split; [cbn; lia|]].
  destruct (Nat.eqb_spec (String.length v) 0) as [H0|H0]; [by split; [cbn; lia|]|].
  destruct (Nat.leb_spec (String.length v) 18) as [H18|H18]; [by split; [lia|]|].
  change 10 with (Z.of_nat 10). change (-6) with (- Z.of_nat 6).
  rewrite slice_head, slice_tail by lia.
  set (A := substring 0 10 v). set (B := substring (String.length v - 6) 6 v).
  assert (String.length A = 10%nat) as HA by (unfold A; rewrite length_substring; lia).
  assert (String.length B = 6%nat) as HB by (unfold B; rewrite length_substring; lia).
  assert (String.length (A ++ "..." ++ B) = 19%nat) as Hlen.
  { rewrite !length_append, HA, HB. done. }
  split; [lia|]. split; [done|]. split; [|split].
  - rewrite substring_append_l by lia. apply substring_all. lia.
  - replace 10%nat with (String.length A + 0)%nat at 1 by lia.
    rewrite substring_append_r. simpl. by destruct B.
  - replace 13%nat with (String.length A + 3)%nat by lia.
    rewrite substring_append_r.
    etrans; [exact (substring_append_r 0 6 "..." B)|]. apply substring_all. lia.
Qed.

(** X15 (one labelling, two clients).  For every integer id the web client's
    [buildingNameFromId] and the label the decrypt task prints agree: the
    four catalogue names for 1..4, "None" for 0, "Unknown" for anything
    else. *)
Theorem X15_labels_agree i :
  GameApp.buildingNameFromId i = Tasks.buildingLabel i ∧
  (GameApp.buildingNameFromId i = "Unknown"%string ↔ ¬ (0 ≤ i ≤ 4)).
Proof.
  destruct (decide (i = 0)) as [->|N0]; [by split; [|split; [|lia]]|].
  destruct (decide (i = 1)) as [->|N1]; [by split; [|split; [|lia]]|].
  destruct (decide (i = 2)) as [->|N2]; [by split; [|split; [|lia]]|].
  destruct (decide (i = 3)) as [->|N3]; [by split; [|split; [|lia]]|].
  destruct (decide (i = 4)) as [->|N4]; [by split; [|split; [|lia]]|].
  assert (GameApp.buildingNameFromId i = "Unknown"%string) as ->.
  { unfold GameApp.buildingNameFromId, GameApp.BUILDINGS.
    cbn [find GameApp.id].
    by repeat (case Z.eqb_spec; [intros; lia|intros _]). }
  split; [|split; [lia|done]].
  unfold Tasks.buildingLabel, Tasks.BUILDING_LABELS. cbn [list_to_map foldr fst snd].
  by rewrite !lookup_insert_ne, lookup_empty by lia.
Qed.

(** X16 (a stored building always has a name).  In a reachable world the
    last building of a registered player is never shown as "Unknown", and it
    is shown as "None" exactly when the player still holds the full 1000
    gold. *)
Theorem X16_last_building_named w a g b :
  reachable w → standing w a = Some (g, b) →
  GameApp.buildingNameFromId b ≠ "Unknown"%string ∧
  (GameApp.buildingNameFromId b = "None"%string ↔ g = 1000).
Proof.
  intros Hw Hst. destruct (standing_shape w a g b Hw Hst) as [Hshape _].
  assert (b = 0 ∨ b = 1 ∨ b = 2 ∨ b = 3 ∨ b = 4) as Hb by lia.
  destruct Hb as [->|[->|[->|[->| ->]]]]; (split; [done|]); cbn;
    split; try done; lia.
Qed.

Lemma X16_witness :
  GameApp.buildingNameFromId 1 ≠ "Unknown"%string ∧
  (GameApp.buildingNameFromId 1 = "None"%string ↔ 100 = 1000).
Proof.
  apply (X16_last_building_named alice_at_100 alice 100 1).
  - exists 5%N, [join alice; build alice 4; build alice 4; build alice 1].
    reflexivity.
  - reflexivity.
Defined.

(** X17 (the build menu).  Whatever price list arrives -- empty, short or
    too long -- [buildingOptions] offers exactly the four catalogue buildings
    in order; the cost shown for each is the received price at its position
    when there is one and the default price otherwise, and surplus prices are
    ignored. *)
Theorem X17_buildingOptions prices :
  map GameApp.building_of (GameApp.buildingOptions prices) = GameApp.BUILDINGS ∧
  map GameApp.cost (GameApp.buildingOptions prices)
    = take 4 (prices ++ drop (length prices) GameApp.DEFAULT_PRICES).
Proof.
  split; [done|].
  by destruct prices as [|p0 [|p1 [|p2 [|p3 rest]]]].
Qed.

(** X18 (a click charges what the menu shows).  With the price list the
    contract serves, every option of the build menu requests a catalogue id,
    and in a reachable world a registered player who validly submits that id
    pays exactly the cost shown when they can afford it and is left unchanged
    otherwise. *)
Theorem X18_menu_price_charged w a opt prf :
  reachable w → isRegistered w a = true →
  opt ∈ GameApp.buildingOptions getBuildingPrices →
  proof_verifies prf = true →
  1 ≤ GameApp.id (GameApp.building_of opt) ≤ 4 ∧
  ∃ w',
    transact w (mkMessage a (ConstructBuilding
                               {| ext_clear := GameApp.id (GameApp.building_of opt) |} prf))
      = (w', None) ∧
    standing w' a =
      if GameApp.cost opt <=? goldOf w a
      then Some (goldOf w a - GameApp.cost opt, GameApp.id (GameApp.building_of opt))
      else Some (goldOf w a, lastBuildingOf w a).
Proof.
  intros Hw Hreg Hopt Hprf. cbn in Hopt.
  rewrite !elem_of_cons in Hopt.
  destruct Hopt as [->|[->|[->|[->|Hopt]]]]; [..|by apply elem_of_nil in Hopt];
    cbn [GameApp.id GameApp.building_of GameApp.cost]; (split; [lia|]).
  - by apply (listed_price_charged w a 0 _ prf).
  - by apply (listed_price_charged w a 1 _ prf).
  - by apply (listed_price_charged w a 2 _ prf).
  - by apply (listed_price_charged w a 3 _ prf).
Qed.

Lemma X18_witness :
  1 ≤ 2 ≤ 4 ∧
  ∃ w',
    transact alice_joined (mkMessage alice (ConstructBuilding {| ext_clear := 2 |} proven))
      = (w', None) ∧
    standing w' alice =
      if 200 <=? goldOf alice_joined alice
      then Some (goldOf alice_joined alice - 200, 2)
      else Some (goldOf alice_joined alice, lastBuildingOf alice_joined alice).
Proof.
  apply (X18_menu_price_charged alice_joined alice
           (GameApp.mkOption (GameApp.mkBuilding 2 "Farm") 200) proven).
  - exists 5%N, [join alice]. reflexivity.
  - reflexivity.
  - cbn. apply elem_of_cons. right. apply elem_of_cons. by left.
  - reflexivity.
Defined.

Lemma pattern_shape s :
  GameApp.ADDRESS_PATTERN_test s = true →
  String.length s = 42%nat ∧ substring 0 2 s = "0x"%string ∧
  forallb GameApp.isHexDigit (list_ascii_of_string (substring 2 40 s)) = true.
Proof.
  destruct s as [|c0 [|c1 digits]]; [done..|].
  unfold GameApp.ADDRESS_PATTERN_test.
  intros [[[H0 H1]%andb_prop Hlen]%andb_prop Hhex]%andb_prop.
  apply Ascii.eqb_eq in H0 as ->. apply Ascii.eqb_eq in H1 as ->.
  apply Nat.eqb_eq in Hlen. cbn [String.length substring].
  rewrite Hlen. split; [done|]. split; [by destruct digits|].
  by rewrite substring_all by lia.
Qed.

(** X19 (the target address is always well formed).  Whatever is typed into
    the address field and however often "apply" is pressed, the address the
    client talks to matches the address pattern: 42 characters, "0x" followed
    by 40 hexadecimal digits.  It changes only when a matching address is
    applied, and that also discards any decrypted state on display. *)
Theorem X19_game_address_well_formed (acts : list GameApp.action) (a : GameApp.action) :
  let v := foldl GameApp.act GameApp.initialView acts in
  GameApp.ADDRESS_PATTERN_test (GameApp.gameAddress v) = true ∧
  String.length (GameApp.gameAddress v) = 42%nat ∧
  (GameApp.gameAddress (GameApp.act v a) ≠ GameApp.gameAddress v →
   a = GameApp.Apply ∧
   GameApp.gameAddress (GameApp.act v a) = GameApp.customAddress v ∧
   GameApp.decryptedState (GameApp.act v a) = None).
Proof.
  intros v.
  assert (GameApp.ADDRESS_PATTERN_test (GameApp.gameAddress v) = true) as Hv.
  { subst v. induction acts as [|b acts IH] using rev_ind; [done|].
    rewrite foldl_snoc. destruct b as [typed|]; [done|].
    cbn [GameApp.act]. unfold GameApp.applyContractAddress.
    by destruct (GameApp.ADDRESS_PATTERN_test (GameApp.customAddress _)) eqn:Hc. }
  split; [done|]. split; [by apply pattern_shape|].
  destruct a as [typed|]; [done|].
  cbn [GameApp.act]. unfold GameApp.applyContractAddress.
  by destruct (GameApp.ADDRESS_PATTERN_test (GameApp.customAddress v)).
Qed.

Lemma X19_witness :
  GameApp.Apply = GameApp.Apply ∧
  GameApp.gameAddress
    (GameApp.act
       (foldl GameApp.act GameApp.initialView
          [GameApp.Type_ "0x00000000000000000000000000000000000000aB"])
       GameApp.Apply)
  = GameApp.customAddress
      (foldl GameApp.act GameApp.initialView
         [GameApp.Type_ "0x00000000000000000000000000000000000000aB"]) ∧
  GameApp.decryptedState
    (GameApp.act
       (foldl GameApp.act GameApp.initialView
          [GameApp.Type_ "0x00000000000000000000000000000000000000aB"])
       GameApp.Apply) = None.
Proof.
  pose proof (X19_game_address_well_formed
                [GameApp.Type_ "0x00000000000000000000000000000000000000aB"]
                GameApp.Apply) as H.
  cbv zeta in H. destruct H as (_ & _ & H). apply H.
  vm_compute. discriminate.
Defined.

(** ** Who may decrypt what *)

















